(** * Text graph analyzer: word-adjacency graph and its queries

    A shallow embedding of [main.py] (graph construction in [load_file],
    [bridge_words], [pagerank_with_dangling], [func_shortest_path], the
    random walk of [walk_thread]) and of [calc_shortest_path] from the
    [SE/Lab3] tests, together with the properties stated about them. *)

From Stdlib Require Import QArith Qcanon Qcabs Floats Uint63.
From stdpp Require Import base numbers list strings gmap sorting.

Set Warnings "-clear-no-such-hyp,-inexact-float".

(** ** The directed graph

    The program stores its graph in a [networkx.DiGraph].  Only insertion is
    ever used ([add_edge]; [clear] resets everything), so the three ordered
    dictionaries of the library ([_node], [_succ], [_pred]) are determined by
    two insertion-ordered lists: the nodes in the order in which they were
    first seen, and the edges in the order in which they were first added,
    each with its ["weight"] attribute.  Iterating [_succ[u]] (resp.
    [_pred[u]]) visits the edges leaving (resp. entering) [u] in that same
    order of first insertion. *)

Record DiGraph := mkDiGraph {
  g_nodes : list string;
  g_edges : list (string * string * Z)
}.

(** [nx.DiGraph()] and [G.clear()]. *)
Definition empty_graph : DiGraph := mkDiGraph [] [].
Definition clear (G : DiGraph) : DiGraph := empty_graph.

(** [w in G], [len(G)], [G.size()], [list(G)]. *)
Definition contains (G : DiGraph) (w : string) : bool :=
  bool_decide (w ∈ g_nodes G).
Definition len (G : DiGraph) : nat := length (g_nodes G).
Definition size (G : DiGraph) : nat := length (g_edges G).

Definition edge_keys (G : DiGraph) : list (string * string) := (g_edges G).*1.

(** [G.has_edge(u, v)]. *)
Definition has_edge (G : DiGraph) (u v : string) : bool :=
  bool_decide ((u, v) ∈ edge_keys G).

(** [G.successors(u)] and [G.predecessors(u)].  The library raises on a node
    that is not in the graph; every call site of the program passes a node of
    the graph, where the result is the list below. *)
Definition successors (G : DiGraph) (u : string) : list string :=
  (λ e, e.1.2) <$> filter (λ e, e.1.1 = u) (g_edges G).
Definition predecessors (G : DiGraph) (u : string) : list string :=
  (λ e, e.1.1) <$> filter (λ e, e.1.2 = u) (g_edges G).

(** [G[u][v]["weight"]]: [None] stands for the [KeyError] of a missing edge. *)
Fixpoint lookup_weight (es : list (string * string * Z)) (u v : string)
  : option Z :=
  match es with
  | [] => None
  | e :: es' => if bool_decide (e.1 = (u, v)) then Some e.2
                else lookup_weight es' u v
  end.
Definition edge_weight (G : DiGraph) (u v : string) : option Z :=
  lookup_weight (g_edges G) u v.

(** [G.add_edge(u, v, weight=w)]: both endpoints become nodes if they are
    not yet ([u] first), then the attribute of the edge is set, in place when
    the edge exists already. *)
Definition add_node (G : DiGraph) (u : string) : DiGraph :=
  if contains G u then G
  else mkDiGraph (g_nodes G ++ [u]) (g_edges G).

Definition set_weight (es : list (string * string * Z)) (u v : string) (w : Z)
  : list (string * string * Z) :=
  if bool_decide ((u, v) ∈ es.*1)
  then (λ e, if bool_decide (e.1 = (u, v)) then (u, v, w) else e) <$> es
  else es ++ [(u, v, w)].

Definition add_edge (G : DiGraph) (u v : string) (w : Z) : DiGraph :=
  mkDiGraph (g_nodes (add_node (add_node G u) v)) (set_weight (g_edges G) u v w).

(** The invariants the library maintains: nodes and edges are not repeated,
    and the endpoints of an edge are nodes. *)
Record wf_graph (G : DiGraph) : Prop := {
  wf_nodes : NoDup (g_nodes G);
  wf_keys : NoDup (edge_keys G);
  wf_src : ∀ u v, (u, v) ∈ edge_keys G → u ∈ g_nodes G;
  wf_dst : ∀ u v, (u, v) ∈ edge_keys G → v ∈ g_nodes G
}.

(** Edge weights are counts: at least one. *)
Definition positive_weights (G : DiGraph) : Prop :=
  ∀ e, e ∈ g_edges G → (1 ≤ e.2)%Z.

(** ** [tokenize]

    Strings are sequences of bytes.  [lower] is [str.lower] on ASCII text
    (other bytes are kept).  [ALPHA_PATTERN.sub(" ", text)] puts one space
    for every maximal run of characters other than the 52 ASCII letters, and
    [str.split()] cuts at runs of white space and yields no empty string. *)
Definition lower_ascii (c : Ascii.ascii) : Ascii.ascii :=
  let n := Ascii.nat_of_ascii c in
  if bool_decide (65 ≤ n ≤ 90) then Ascii.ascii_of_nat (n + 32) else c.
Fixpoint lower (s : string) : string :=
  match s with
  | EmptyString => EmptyString
  | String c s' => String (lower_ascii c) (lower s')
  end.

Definition is_alpha (c : Ascii.ascii) : bool :=
  let n := Ascii.nat_of_ascii c in
  bool_decide (65 ≤ n ≤ 90) || bool_decide (97 ≤ n ≤ 122).

Definition is_space (c : Ascii.ascii) : bool :=
  let n := Ascii.nat_of_ascii c in
  bool_decide (n = 32) || bool_decide (9 ≤ n ≤ 13) || bool_decide (28 ≤ n ≤ 31).

(** [in_run] tells whether the previous character was replaced already. *)
Fixpoint sub_non_alpha (in_run : bool) (s : string) : string :=
  match s with
  | EmptyString => EmptyString
  | String c s' =>
      if is_alpha c then String c (sub_non_alpha false s')
      else if in_run then sub_non_alpha true s'
      else String (Ascii.ascii_of_nat 32) (sub_non_alpha true s')
  end.

(** [cur] is the fragment read since the last white space. *)
Fixpoint split_ws (cur : string) (s : string) : list string :=
  match s with
  | EmptyString => if bool_decide (cur = "") then [] else [cur]
  | String c s' =>
      if is_space c
      then (if bool_decide (cur = "") then split_ws "" s'
            else cur :: split_ws "" s')
      else split_ws (cur +:+ String c "") s'
  end.

Definition tokenize (text : string) : list string :=
  let text := lower text in
  let clean := sub_non_alpha false text in
  split_ws "" clean.

(** The shape of a token: a non-empty string of lowercase ASCII letters. *)
Definition is_lower_alpha (c : Ascii.ascii) : bool :=
  let n := Ascii.nat_of_ascii c in bool_decide (97 ≤ n ≤ 122).

Fixpoint all_chars (P : Ascii.ascii → bool) (s : string) : bool :=
  match s with
  | EmptyString => true
  | String c s' => P c && all_chars P s'
  end.

Definition is_token (t : string) : Prop :=
  t ≠ "" ∧ all_chars is_lower_alpha t = true.

(** [" ".join(words)]. *)
Definition join_words (words : list string) : string := String.concat " " words.

(** ** [bridge_words] *)

Definition bridge_words (G : DiGraph) (w1 w2 : string) : list string :=
  if negb (contains G w1) || negb (contains G w2) then []
  else filter (λ mid, has_edge G mid w2 = true) (successors G w1).

(** [sorted(set(words))]: the words without repetition, in increasing order
    (strings compare character by character). *)
Definition sorted_set (words : list string) : list string :=
  merge_sort String.le (elements (list_to_set (C:=gset string) words)).

(** What the user sees at the end of [func_bridge]: [ans1] and [ans2] are
    what the two dialogs return. *)
Inductive bridge_outcome :=
  | BridgeLoadFirst
  | BridgeDismissed
  | NoBridge
  | Bridges (words : list string).

(** ** Graph construction in [load_file]

    [truthy s] is the truth value Python gives a string: false exactly for
    the empty one. *)
Definition truthy (s : string) : bool := negb (bool_decide (s = "")).

Definition func_bridge (G : DiGraph) (ans1 ans2 : option string)
  : bridge_outcome :=
  if bool_decide (len G = 0) then BridgeLoadFirst
  else
    match ans1 with
    | None => BridgeDismissed
    | Some w1 =>
        if negb (truthy w1) then BridgeDismissed
        else
          match ans2 with
          | None => BridgeDismissed
          | Some w2 =>
              if negb (truthy w2) then BridgeDismissed
              else
                let bridges := bridge_words G (lower w1) (lower w2) in
                match bridges with
                | [] => NoBridge
                | _ => Bridges (sorted_set bridges)
                end
          end
    end.

(** [G[a][b]["weight"] + 1 if G.has_edge(a, b) else 1]. *)
Definition next_weight (G : DiGraph) (a b : string) : Z :=
  if has_edge G a b then (default 0 (edge_weight G a b) + 1)%Z else 1%Z.

(** One turn of [for a, b in zip(words, words[1:])]. *)
Definition load_step (G : DiGraph) (ab : string * string) : DiGraph :=
  if truthy ab.1 && truthy ab.2
  then add_edge G ab.1 ab.2 (next_weight G ab.1 ab.2)
  else G.

(** The part of [load_file] that rebuilds the graph from the words read. *)
Definition load_words (G : DiGraph) (words : list string) : DiGraph :=
  foldl load_step (clear G) (zip words (tail words)).

(** [load_file] on the lines of the file chosen: the words of all lines are
    collected, then the graph is rebuilt. *)
Definition read_words (lines : list string) : list string :=
  lines ≫= tokenize.
Definition load_file (G : DiGraph) (lines : list string) : DiGraph :=
  load_words G (read_words lines).

(** The pairs for which the loop reaches [G.add_edge], in order. *)
Definition add_edge_calls (words : list string) : list (string * string) :=
  filter (λ ab, truthy ab.1 && truthy ab.2 = true) (zip words (tail words)).

(** Number of positions [i] with [words[i] = a] and [words[i+1] = b]. *)
Definition adjacent_count (a b : string) (words : list string) : nat :=
  length (filter (λ ab, ab = (a, b)) (zip words (tail words))).

(** The sum of all edge weights. *)
Definition sum_es (es : list (string * string * Z)) : Z :=
  foldr (λ e acc, (e.2 + acc)%Z) 0%Z es.
Definition total_weight (G : DiGraph) : Z := sum_es (g_edges G).

(** A pair of tokens: both strings are non-empty. *)
Definition guarded (ab : string * string) : Prop := ab.1 ≠ "" ∧ ab.2 ≠ "".

Definition sample_words : list string :=
  ["the"; "quick"; "brown"; "fox"; "jumps"; "over"; "the"; "lazy"; "dog"].
Definition sample_graph : DiGraph := load_words empty_graph sample_words.

(** The graph with the single edge [a → b], and the same with a loop on
    [b]. *)
Definition ab_graph : DiGraph := add_edge empty_graph "a" "b" 1.
Definition loop_graph : DiGraph := add_edge ab_graph "b" "b" 2.

(** ** [pagerank_with_dangling]

    The ranks are Python floats.  The algorithm is written once over an
    interface of the arithmetic it uses, so that what is proved about the
    shape of an iteration holds whatever the arithmetic is.  The interface
    has two instances: exact rationals, for which the conservation of rank
    mass is proved, and binary64 floats, with which the function is run on
    examples. *)

Class Arith (F : Type) := {
  of_int : Z → F;
  fadd : F → F → F;
  fsub : F → F → F;
  fmul : F → F → F;
  fdiv : F → F → F;
  fabs : F → F;
  flt : F → F → bool
}.

Global Instance Qc_arith : Arith Qc := {|
  of_int := Qc_of_Z;
  fadd := Qcplus;
  fsub := Qcminus;
  fmul := Qcmult;
  fdiv := Qcdiv;
  fabs := Qcabs;
  flt := λ x y, bool_decide (x < y)%Qc
|}.

(** Python floats are IEEE 754 binary64 numbers, and so are the primitive
    floats; an integer operand is converted first. *)
Definition float_of_int (z : Z) : float :=
  if (z <? 0)%Z then PrimFloat.opp (PrimFloat.of_uint63 (Uint63.of_Z (- z)))
  else PrimFloat.of_uint63 (Uint63.of_Z z).

Global Instance float_arith : Arith float := {|
  of_int := float_of_int;
  fadd := PrimFloat.add;
  fsub := PrimFloat.sub;
  fmul := PrimFloat.mul;
  fdiv := PrimFloat.div;
  fabs := PrimFloat.abs;
  flt := PrimFloat.ltb
|}.

Section PageRank.
Context {F : Type} `{Arith F}.

(** [sum(...)]: the built-in starts from the integer 0 and adds from the
    left. *)
Definition psum (xs : list F) : F := foldl fadd (of_int 0) xs.

(** [m[u]] for a rank dictionary.  The keys of every dictionary of the
    function are the nodes of the graph, and it is only indexed by nodes. *)
Definition rank (m : gmap string F) (u : string) : F :=
  default (of_int 0) (m !! u).

Variable G : DiGraph.
Variable d : F.
Variable tol : F.

Definition N : F := of_int (Z.of_nat (len G)).

(** [len(succ[v])], where [succ[v]] holds [list(G.successors(v))]. *)
Definition out_degree (v : string) : nat := length (successors G v).

(** [sum(prev[u] for u in nodes if len(succ[u]) == 0)]. *)
Definition dangling_mass (prev : gmap string F) : F :=
  psum (rank prev <$> filter (λ u, out_degree u = 0) (g_nodes G)).

(** [sum(prev[v] / len(succ[v]) for v in G.predecessors(u))]. *)
Definition incoming (prev : gmap string F) (u : string) : F :=
  psum ((λ v, fdiv (rank prev v) (of_int (Z.of_nat (out_degree v))))
          <$> predecessors G u).

(** The value assigned to [pr[u]]. *)
Definition new_rank (prev : gmap string F) (dangling : F) (u : string) : F :=
  let s := fadd (fdiv dangling N) (incoming prev u) in
  fadd (fdiv (fsub (of_int 1) d) N) (fmul d s).

(** The body of [for u in nodes]: [pr] is updated in place, [prev] and
    [dangling] were fixed before the sweep. *)
Definition sweep_step (prev : gmap string F) (dangling : F)
    (pr : gmap string F) (u : string) : gmap string F :=
  <[u := new_rank prev dangling u]> pr.

(** One turn of [for _ in range(max_iter)], up to the convergence test. *)
Definition iteration (pr : gmap string F) : gmap string F :=
  let prev := pr in
  let dangling := dangling_mass prev in
  foldl (sweep_step prev dangling) pr (g_nodes G).

(** [sum(abs(pr[u] - prev[u]) for u in nodes)]. *)
Definition change (pr prev : gmap string F) : F :=
  psum ((λ u, fabs (fsub (rank pr u) (rank prev u))) <$> g_nodes G).

Fixpoint iterate (max_iter : nat) (pr : gmap string F) : gmap string F :=
  match max_iter with
  | 0 => pr
  | S n =>
      let prev := pr in
      let pr' := iteration pr in
      if flt (change pr' prev) tol then pr' else iterate n pr'
  end.

(** [{u: 1.0 / N for u in nodes}]. *)
Definition initial_ranks : gmap string F :=
  foldl (λ m u, <[u := fdiv (of_int 1) N]> m) ∅ (g_nodes G).

Definition pagerank_with_dangling (max_iter : nat) : gmap string F :=
  if bool_decide (len G = 0) then ∅
  else iterate max_iter initial_ranks.

(** The keys of a rank dictionary are the nodes of the graph. *)
Definition keys_are_nodes (pr : gmap string F) : Prop :=
  ∀ u, is_Some (pr !! u) ↔ u ∈ g_nodes G.
End PageRank.

(** The sum of a list of exact rationals. *)
Definition sumq (xs : list Qc) : Qc := foldr Qcplus 0%Qc xs.

(** What every rank vector of the iteration satisfies: its keys are the
    nodes, its values are non-negative and add up to one. *)
Record rank_inv (G : DiGraph) (pr : gmap string Qc) : Prop := {
  ri_dom : ∀ u, is_Some (pr !! u) ↔ u ∈ g_nodes G;
  ri_nonneg : ∀ u, (0 ≤ rank pr u)%Qc;
  ri_sum : sumq (rank pr <$> g_nodes G) = 1%Qc
}.

(** ** [func_pagerank]

    [sorted(pr.items(), key=lambda x: x[1], reverse=True)]: the items of the
    dictionary come in the order of the nodes, the sort is stable, and with
    [reverse=True] items of equal score keep their order.  [insert_ranked]
    puts an item in front of a ranking of the items that came after it. *)
Fixpoint insert_ranked {F : Type} `{Arith F} (x : string * F)
    (l : list (string * F)) : list (string * F) :=
  match l with
  | [] => [x]
  | y :: l' => if flt x.2 y.2 then y :: insert_ranked x l' else x :: l
  end.

Definition ranked {F : Type} `{Arith F} (G : DiGraph) (pr : gmap string F)
  : list (string * F) :=
  foldr insert_ranked [] ((λ u, (u, rank pr u)) <$> g_nodes G).

(** The lines of the result window, [None] for the warning on an empty
    graph; [d] and [tol] are the default arguments 0.85 and 1e-10. *)
Definition func_pagerank {F : Type} `{Arith F} (G : DiGraph) (d tol : F)
  : option (list (nat * (string * F))) :=
  if bool_decide (len G = 0) then None
  else
    let pr := pagerank_with_dangling G d tol 100 in
    Some (imap (λ i item, (S i, item)) (ranked G pr)).

(** ** Shortest paths

    [nx.shortest_path(G, w1, w2, weight="weight")] belongs to the networkx
    library.  It returns a list of nodes or raises one of two exceptions. *)

Inductive nx_result :=
  | NxPath (path : list string)
  | NetworkXNoPath
  | NodeNotFound.

(** A path is a sequence of nodes; its steps are [zip(path, path[1:])]. *)
Definition steps (path : list string) : list (string * string) :=
  zip path (tail path).

Definition is_path (G : DiGraph) (w1 w2 : string) (path : list string) : Prop :=
  head path = Some w1 ∧ last path = Some w2 ∧
  Forall (λ uv, uv ∈ edge_keys G) (steps path).

(** The cost of a path: the sum of the weights of the edges it traverses. *)
Definition weight (G : DiGraph) (uv : string * string) : Z :=
  default 0%Z (edge_weight G uv.1 uv.2).
Definition cost_steps (G : DiGraph) (es : list (string * string)) : Z :=
  foldr (λ uv acc, (weight G uv + acc)%Z) 0%Z es.
Definition path_cost (G : DiGraph) (path : list string) : Z :=
  cost_steps G (steps path).

(** What the library documents for the call: [NodeNotFound] when an endpoint
    is not in the graph, [NetworkXNoPath] when the target cannot be reached,
    and otherwise a path of least total weight. *)
Definition nx_contract (G : DiGraph) (w1 w2 : string) (r : nx_result) : Prop :=
  match r with
  | NodeNotFound => w1 ∉ g_nodes G ∨ w2 ∉ g_nodes G
  | NetworkXNoPath =>
      w1 ∈ g_nodes G ∧ w2 ∈ g_nodes G ∧ ¬ ∃ q, is_path G w1 w2 q
  | NxPath p =>
      w1 ∈ g_nodes G ∧ w2 ∈ g_nodes G ∧ is_path G w1 w2 p ∧
      ∀ q, is_path G w1 w2 q → (path_cost G p ≤ path_cost G q)%Z
  end.

(** A direct realisation of that contract: the loop-free paths from [u] to
    [t] are listed, and a cheapest one is kept.  It shows that the contract
    can be met on every graph and lets the queries be evaluated on examples;
    what is proved about [func_shortest_path] holds for every function that
    meets the contract. *)
Fixpoint simple_paths (G : DiGraph) (fuel : nat) (seen : list string)
    (u t : string) : list (list string) :=
  if bool_decide (u = t) then [[u]]
  else
    match fuel with
    | 0 => []
    | S fuel' =>
        v ← filter (λ v, v ∉ u :: seen) (successors G u);
        (cons u) <$> simple_paths G fuel' (u :: seen) v t
    end.

Fixpoint cheapest (G : DiGraph) (best : list string) (ps : list (list string))
  : list string :=
  match ps with
  | [] => best
  | p :: ps' =>
      cheapest G (if bool_decide (path_cost G p < path_cost G best)%Z
                  then p else best) ps'
  end.

Definition reference_shortest_path (G : DiGraph) (w1 w2 : string) : nx_result :=
  if negb (contains G w1) || negb (contains G w2) then NodeNotFound
  else
    match simple_paths G (len G) [] w1 w2 with
    | [] => NetworkXNoPath
    | p :: ps => NxPath (cheapest G p ps)
    end.

(** What the user sees at the end of [func_shortest_path]. *)
Inductive py_exception := ExcNodeNotFound | ExcKeyError.

Inductive sp_outcome :=
  | WarnLoadFirst
  | Dismissed
  | WarnUnknownWord
  | ShowPath (path : list string) (length : Z)
  | ShowUnreachable
  | Uncaught (e : py_exception).

(** [sum(G[u][v]["weight"] for u, v in path_edges)]. *)
Definition sum_weights (G : DiGraph) (es : list (string * string)) : option Z :=
  foldl Z.add 0%Z <$> mapM (λ uv, edge_weight G uv.1 uv.2) es.

Section ShortestPath.
Variable nx_shortest_path : DiGraph → string → string → nx_result.

(** [func_shortest_path] from the membership test on: [path_edges] is a set,
    which is traversed in some order of its own. *)
Definition shortest_path_query (G : DiGraph) (w1 w2 : string) : sp_outcome :=
  if negb (contains G w1) || negb (contains G w2) then WarnUnknownWord
  else
    match nx_shortest_path G w1 w2 with
    | NxPath path =>
        let path_edges : gset (string * string) := list_to_set (steps path) in
        match sum_weights G (elements path_edges) with
        | Some length => ShowPath path length
        | None => Uncaught ExcKeyError
        end
    | NetworkXNoPath => ShowUnreachable
    | NodeNotFound => Uncaught ExcNodeNotFound
    end.

(** The whole method: [ans1] and [ans2] are what the two dialogs return
    ([None] when the dialog is closed). *)
Definition func_shortest_path (G : DiGraph) (ans1 ans2 : option string)
  : sp_outcome :=
  if bool_decide (len G = 0) then WarnLoadFirst
  else
    match ans1 with
    | None => Dismissed
    | Some w1 =>
        if negb (truthy w1) then Dismissed
        else
          match ans2 with
          | None => Dismissed
          | Some w2 =>
              if negb (truthy w2) then Dismissed
              else shortest_path_query G (lower w1) (lower w2)
          end
    end.

(** [calc_shortest_path] of the tests. *)
Definition calc_shortest_path (G : DiGraph) (word1 word2 : string)
  : option (list string) :=
  match nx_shortest_path G word1 word2 with
  | NxPath path => Some path
  | NetworkXNoPath => None
  | NodeNotFound => None
  end.
End ShortestPath.

(** ** The random walk of [walk_thread]

    [rnd k] is the number drawn for the [k]-th call of [random.choice], which
    picks the element at that number modulo the length; [stop i] tells
    whether the stop event is set when the loop condition is evaluated for
    the [i]-th time. *)

Inductive walk_status := DeadEnd | CycleDetected | Cancelled | EmptyChoice.

Record walk_state := mkWalk {
  w_node : string;
  w_visited : list string;
  w_edges : gset (string * string)
}.

Section RandomWalk.
Variable G : DiGraph.
Variable rnd : nat → nat.
Variable stop : nat → bool.

Definition random_choice (k : nat) (x0 : string) (xs : list string) : string :=
  nth (rnd k mod length xs) xs x0.

(** The [while] loop; [None] when [fuel] turns do not reach a [break] or a
    set stop event. *)
Fixpoint walk_loop (fuel i : nat) (st : walk_state)
  : option (walk_status * walk_state) :=
  match fuel with
  | 0 => None
  | S fuel' =>
      if stop i then Some (Cancelled, st)
      else
        match successors G (w_node st) with
        | [] => Some (DeadEnd, st)
        | (s0 :: _) as succ =>
            let next_node := random_choice (S i) s0 succ in
            if bool_decide ((w_node st, next_node) ∈ w_edges st)
            then Some (CycleDetected, st)
            else walk_loop fuel' (S i)
                   (mkWalk next_node (w_visited st ++ [next_node])
                      ({[ (w_node st, next_node) ]} ∪ w_edges st))
        end
  end.

Definition walk_from (node : string) : walk_state := mkWalk node [node] ∅.

(** [walk_thread]: the status on leaving the loop and the nodes visited.
    [random.choice] raises on an empty graph, which [func_random_walk]
    excludes before the thread is started. *)
Definition walk_thread (fuel : nat) : option (walk_status * list string) :=
  match g_nodes G with
  | [] => Some (EmptyChoice, [])
  | (n0 :: _) as nodes =>
      prod_map id w_visited <$> walk_loop fuel 0 (walk_from (random_choice 0 n0 nodes))
  end.
End RandomWalk.

(** ** [func_transform_sentence]

    [process] is what the button of the window runs on the text typed; the
    [k]-th call of [random.choice] picks the element at [rnd k] modulo the
    length. *)
Inductive sentence_outcome :=
  | SentenceLoadFirst
  | SentenceTooShort
  | Sentence (new_sentence : string).

(** The loop [for a, b in zip(words, words[1:])]. *)
Fixpoint insert_bridges (G : DiGraph) (rnd : nat → nat) (k : nat)
    (pairs : list (string * string)) : list string :=
  match pairs with
  | [] => []
  | ab :: pairs' =>
      match bridge_words G ab.1 ab.2 with
      | [] => ab.1 :: insert_bridges G rnd k pairs'
      | (m0 :: _) as mids =>
          ab.1 :: random_choice rnd k m0 mids :: insert_bridges G rnd (S k) pairs'
      end
  end.

(** [res] after [res.append(words[-1])]. *)
Definition bridged_words (G : DiGraph) (rnd : nat → nat) (words : list string)
  : list string :=
  insert_bridges G rnd 0 (zip words (tail words)) ++ option_list (last words).

Definition process (G : DiGraph) (rnd : nat → nat) (text : string)
  : sentence_outcome :=
  let words := tokenize text in
  if bool_decide (length words < 2) then SentenceTooShort
  else Sentence (join_words (bridged_words G rnd words)).

Definition func_transform_sentence (G : DiGraph) (rnd : nat → nat)
    (text : string) : sentence_outcome :=
  if bool_decide (len G = 0) then SentenceLoadFirst else process G rnd text.

(** What the loop keeps true of its variables [node], [visited], [edges]. *)
Record walk_inv (G : DiGraph) (st : walk_state) : Prop := {
  inv_last : last (w_visited st) = Some (w_node st);
  inv_nodup : NoDup (steps (w_visited st));
  inv_edges : ∀ e, e ∈ w_edges st ↔ e ∈ steps (w_visited st);
  inv_graph : ∀ e, e ∈ steps (w_visited st) → e ∈ edge_keys G
}.

(** What holds on leaving the loop. *)
Definition walk_final (G : DiGraph) (stop : nat → bool)
    (r : walk_status * walk_state) : Prop :=
  walk_inv G r.2 ∧
  match r.1 with
  | DeadEnd => successors G (w_node r.2) = []
  | CycleDetected =>
      ∃ next_node, next_node ∈ successors G (w_node r.2) ∧
                   (w_node r.2, next_node) ∈ steps (w_visited r.2)
  | Cancelled => ∃ i, stop i = true
  | EmptyChoice => False
  end.

(** * Properties *)

(** ** The graph operations *)

Lemma has_edge_true G u v : has_edge G u v = true ↔ (u, v) ∈ edge_keys G.
Proof. unfold has_edge. by rewrite bool_decide_eq_true. Qed.

Lemma contains_true G w : contains G w = true ↔ w ∈ g_nodes G.
Proof. unfold contains. by rewrite bool_decide_eq_true. Qed.

Lemma contains_false G w : contains G w = false ↔ w ∉ g_nodes G.
Proof. unfold contains. by rewrite bool_decide_eq_false. Qed.

Lemma elem_of_successors G u v : v ∈ successors G u ↔ (u, v) ∈ edge_keys G.
Proof.
  unfold successors, edge_keys. rewrite !list_elem_of_fmap. split.
  - intros ([[a b] w] & -> & Hin). apply list_elem_of_filter in Hin as [Ha Hin].
    simpl in *. subst u. by exists (a, b, w).
  - intros ([[a b] w] & Heq & Hin). simpl in Heq. simplify_eq.
    exists (a, b, w). split; [done|]. by apply list_elem_of_filter.
Qed.

Lemma elem_of_predecessors G u v : v ∈ predecessors G u ↔ (v, u) ∈ edge_keys G.
Proof.
  unfold predecessors, edge_keys. rewrite !list_elem_of_fmap. split.
  - intros ([[a b] w] & -> & Hin). apply list_elem_of_filter in Hin as [Hb Hin].
    simpl in *. subst u. by exists (a, b, w).
  - intros ([[a b] w] & Heq & Hin). simpl in Heq. simplify_eq.
    exists (a, b, w). split; [done|]. by apply list_elem_of_filter.
Qed.

Lemma lookup_weight_Some es u v w :
  lookup_weight es u v = Some w → (u, v, w) ∈ es.
Proof.
  induction es as [|[k x] es IH]; simpl; [done|].
  case_bool_decide as Hk; simpl in Hk.
  - intros [= <-]. subst k. apply list_elem_of_here.
  - intros Hl. apply list_elem_of_further. auto.
Qed.

Lemma lookup_weight_None es u v :
  lookup_weight es u v = None ↔ (u, v) ∉ es.*1.
Proof.
  induction es as [|[k x] es IH]; simpl.
  - split; [intros _; apply not_elem_of_nil | done].
  - case_bool_decide as Hk; simpl in Hk.
    + subst k. split; [done|]. intros Hn. destruct Hn. apply list_elem_of_here.
    + rewrite IH, not_elem_of_cons.
      split; [intros ?; split; [congruence|done] | by intros [_ ?]].
Qed.

Lemma lookup_weight_NoDup es u v w :
  NoDup es.*1 → (u, v, w) ∈ es → lookup_weight es u v = Some w.
Proof.
  induction es as [|[k x] es IH]; simpl.
  - intros _ Hin. by apply elem_of_nil in Hin.
  - intros [Hk Hnd]%NoDup_cons Hin. apply elem_of_cons in Hin as [Heq|Hin].
    + simplify_eq. by rewrite bool_decide_eq_true_2.
    + rewrite bool_decide_eq_false_2; [by apply IH|].
      simpl. intros ->. apply Hk. apply list_elem_of_fmap. by exists (u, v, w).
Qed.

Lemma edge_weight_is_Some G u v :
  is_Some (edge_weight G u v) ↔ (u, v) ∈ edge_keys G.
Proof.
  unfold edge_weight, edge_keys. rewrite <-not_eq_None_Some, lookup_weight_None.
  split; [apply dec_stable | by intros ? ?].
Qed.

Lemma set_weight_keys es u v w :
  (set_weight es u v w).*1 =
  if bool_decide ((u, v) ∈ es.*1) then es.*1 else es.*1 ++ [(u, v)].
Proof.
  unfold set_weight. case_bool_decide as Hin.
  - clear Hin. induction es as [|[k x] es IH]; csimpl; [done|].
    rewrite IH. f_equal. by case_bool_decide; simplify_eq/=.
  - by rewrite fmap_app.
Qed.

Lemma lookup_weight_app es1 es2 u v :
  lookup_weight (es1 ++ es2) u v =
  match lookup_weight es1 u v with
  | Some w => Some w
  | None => lookup_weight es2 u v
  end.
Proof.
  induction es1 as [|e es1 IH]; simpl; [done|]. by case_bool_decide.
Qed.

Lemma lookup_weight_update es u v w u' v' :
  lookup_weight
    ((λ e, if bool_decide (e.1 = (u, v)) then (u, v, w) else e) <$> es) u' v' =
  if bool_decide ((u, v) = (u', v'))
  then (λ _, w) <$> lookup_weight es u' v'
  else lookup_weight es u' v'.
Proof.
  induction es as [|[k x] es IH]; csimpl; [by case_bool_decide|].
  rewrite IH. clear IH.
  destruct (decide (k = (u, v))) as [->|Hk].
  - rewrite (bool_decide_eq_true_2 ((u, v) = (u, v))) by done. simpl.
    by case_bool_decide.
  - rewrite (bool_decide_eq_false_2 (k = (u, v))) by done. simpl.
    case_bool_decide as Hk'; [|done]. by case_bool_decide; simplify_eq.
Qed.

Lemma lookup_weight_set_weight es u v w u' v' :
  lookup_weight (set_weight es u v w) u' v' =
  if bool_decide ((u, v) = (u', v')) then Some w else lookup_weight es u' v'.
Proof.
  unfold set_weight. case_bool_decide as Hin.
  - rewrite lookup_weight_update. case_bool_decide as Huv; [|done].
    simplify_eq. destruct (lookup_weight es u' v') eqn:Hl; [done|].
    by apply lookup_weight_None in Hl.
  - rewrite lookup_weight_app. simpl.
    apply lookup_weight_None in Hin.
    case_bool_decide as Huv.
    + simplify_eq. by rewrite Hin.
    + by destruct (lookup_weight es u' v').
Qed.

Lemma edge_weight_add_edge G u v w u' v' :
  edge_weight (add_edge G u v w) u' v' =
  if bool_decide ((u, v) = (u', v')) then Some w else edge_weight G u' v'.
Proof. apply lookup_weight_set_weight. Qed.

Lemma edge_keys_add_edge G u v w :
  edge_keys (add_edge G u v w) =
  if has_edge G u v then edge_keys G else edge_keys G ++ [(u, v)].
Proof. apply set_weight_keys. Qed.

Lemma elem_of_nodes_add_node G u x :
  x ∈ g_nodes (add_node G u) ↔ x = u ∨ x ∈ g_nodes G.
Proof.
  unfold add_node. destruct (contains G u) eqn:Hc; simpl.
  - apply contains_true in Hc. naive_solver.
  - rewrite elem_of_app, list_elem_of_singleton. naive_solver.
Qed.

Lemma NoDup_nodes_add_node G u :
  NoDup (g_nodes G) → NoDup (g_nodes (add_node G u)).
Proof.
  intros Hnd. unfold add_node. destruct (contains G u) eqn:Hc; simpl; [done|].
  apply contains_false in Hc. apply NoDup_app. split_and!; [done| |apply NoDup_singleton].
  intros x Hx ->%list_elem_of_singleton. done.
Qed.

Lemma elem_of_nodes_add_edge G u v w x :
  x ∈ g_nodes (add_edge G u v w) ↔ x = u ∨ x = v ∨ x ∈ g_nodes G.
Proof. simpl. rewrite !elem_of_nodes_add_node. naive_solver. Qed.

Lemma wf_empty_graph : wf_graph empty_graph.
Proof.
  split; simpl; try apply NoDup_nil_2; intros u v Hin; by apply elem_of_nil in Hin.
Qed.

Lemma wf_add_edge G u v w : wf_graph G → wf_graph (add_edge G u v w).
Proof.
  intros [Hn Hk Hs Hd]. split.
  - simpl. by do 2 apply NoDup_nodes_add_node.
  - rewrite edge_keys_add_edge. destruct (has_edge G u v) eqn:He; [done|].
    apply NoDup_app. split_and!; [done| |apply NoDup_singleton].
    intros x Hx ->%list_elem_of_singleton.
    apply has_edge_true in Hx. congruence.
  - intros a b. rewrite edge_keys_add_edge, elem_of_nodes_add_edge.
    destruct (has_edge G u v); [naive_solver|].
    rewrite elem_of_app, list_elem_of_singleton. naive_solver.
  - intros a b. rewrite edge_keys_add_edge, elem_of_nodes_add_edge.
    destruct (has_edge G u v); [naive_solver|].
    rewrite elem_of_app, list_elem_of_singleton. naive_solver.
Qed.

Lemma positive_weights_add_edge G u v w :
  (1 ≤ w)%Z → positive_weights G → positive_weights (add_edge G u v w).
Proof.
  intros Hw Hp e. simpl. unfold set_weight. case_bool_decide.
  - intros ([k x] & -> & Hin)%list_elem_of_fmap. case_bool_decide; [done|].
    by apply Hp.
  - intros [Hin| ->%list_elem_of_singleton]%elem_of_app; [by apply Hp|done].
Qed.

(** ** [bridge_words] *)

(** C5. When [w1] or [w2] is not a node, [bridge_words] returns the empty
    list; when both are nodes, its result holds exactly the [m] for which
    both [w1 → m] and [m → w2] are edges of the graph, with no other
    condition on [m]. *)
Theorem bridge_words_spec G w1 w2 :
  (w1 ∉ g_nodes G ∨ w2 ∉ g_nodes G → bridge_words G w1 w2 = []) ∧
  (w1 ∈ g_nodes G ∧ w2 ∈ g_nodes G →
   ∀ m, m ∈ bridge_words G w1 w2 ↔
        has_edge G w1 m = true ∧ has_edge G m w2 = true).
Proof.
  unfold bridge_words. split.
  - intros [H1|H2].
    + apply contains_false in H1. by rewrite H1.
    + apply contains_false in H2. rewrite H2. by rewrite orb_true_r.
  - intros [H1 H2] m. apply contains_true in H1, H2. rewrite H1, H2. simpl.
    rewrite list_elem_of_filter, elem_of_successors, <-has_edge_true. tauto.
Qed.

(** ** Graph construction *)

Lemma next_weight_eq G a b : next_weight G a b = (weight G (a, b) + 1)%Z.
Proof.
  unfold next_weight, weight. simpl. destruct (has_edge G a b) eqn:He; [done|].
  destruct (edge_weight G a b) eqn:Hw; [|done].
  assert (has_edge G a b = true); [|congruence].
  apply has_edge_true, edge_weight_is_Some. by eexists.
Qed.

Lemma weight_add_edge G u v w uv :
  weight (add_edge G u v w) uv = if bool_decide ((u, v) = uv) then w else weight G uv.
Proof.
  destruct uv as [u' v']. unfold weight. simpl. rewrite edge_weight_add_edge.
  by case_bool_decide.
Qed.

Lemma positive_has_edge G u v :
  positive_weights G → has_edge G u v = true ↔ (1 ≤ weight G (u, v))%Z.
Proof.
  intros Hp. rewrite has_edge_true, <-edge_weight_is_Some. unfold weight. simpl.
  split.
  - intros [w Hw]. rewrite Hw. simpl.
    apply lookup_weight_Some in Hw. by apply (Hp (u, v, w)).
  - destruct (edge_weight G u v); [by eexists | simpl; lia].
Qed.

Lemma load_step_guarded G ab :
  guarded ab → load_step G ab = add_edge G ab.1 ab.2 (next_weight G ab.1 ab.2).
Proof.
  intros [Ha Hb]. unfold load_step, truthy.
  by rewrite !bool_decide_eq_false_2.
Qed.

Lemma load_step_unguarded G ab : ¬ guarded ab → load_step G ab = G.
Proof.
  intros Hg. unfold load_step, truthy. unfold guarded in Hg.
  repeat case_bool_decide; simpl; try done. destruct Hg. done.
Qed.

Lemma wf_load_step G ab : wf_graph G → wf_graph (load_step G ab).
Proof.
  intros Hwf. unfold load_step. destruct (_ && _); [|done]. by apply wf_add_edge.
Qed.

Lemma positive_load_step G ab :
  positive_weights G → positive_weights (load_step G ab).
Proof.
  intros Hp. unfold load_step. destruct (_ && _); [|done].
  apply positive_weights_add_edge; [|done]. rewrite next_weight_eq.
  unfold weight. simpl. destruct (edge_weight G ab.1 ab.2) as [w|] eqn:Hw; simpl; [|lia].
  apply lookup_weight_Some in Hw. apply Hp in Hw. simpl in Hw. lia.
Qed.

Lemma wf_foldl_load G ps : wf_graph G → wf_graph (foldl load_step G ps).
Proof.
  revert G. induction ps as [|ab ps IH]; intros G Hwf; simpl; [done|].
  by apply IH, wf_load_step.
Qed.

Lemma positive_foldl_load G ps :
  positive_weights G → positive_weights (foldl load_step G ps).
Proof.
  revert G. induction ps as [|ab ps IH]; intros G Hp; simpl; [done|].
  by apply IH, positive_load_step.
Qed.

Lemma weight_foldl_load G ps uv :
  Forall guarded ps →
  weight (foldl load_step G ps) uv =
  (weight G uv + Z.of_nat (length (filter (λ ab, ab = uv) ps)))%Z.
Proof.
  revert G. induction ps as [|ab ps IH]; intros G Hg; simpl; [lia|].
  apply Forall_cons in Hg as [Hab Hg]. rewrite IH by done.
  rewrite load_step_guarded by done. rewrite weight_add_edge.
  rewrite filter_cons. destruct ab as [a b]. simpl.
  rewrite next_weight_eq. case_bool_decide; case_decide; simplify_eq; simpl; lia.
Qed.

Lemma foldl_load_calls G ps :
  foldl load_step G ps =
  foldl (λ H ab, add_edge H ab.1 ab.2 (next_weight H ab.1 ab.2)) G
    (filter (λ ab, truthy ab.1 && truthy ab.2 = true) ps).
Proof.
  revert G. induction ps as [|ab ps IH]; intros G; simpl; [done|].
  rewrite filter_cons, IH. unfold load_step. case_decide as Hg.
  - by rewrite Hg.
  - apply not_true_is_false in Hg. by rewrite Hg.
Qed.

Lemma sum_es_app es1 es2 : sum_es (es1 ++ es2) = (sum_es es1 + sum_es es2)%Z.
Proof. induction es1 as [|e es1 IH]; simpl; [done|]. rewrite IH. lia. Qed.

Lemma update_absent (es : list (string * string * Z)) u v w :
  (u, v) ∉ es.*1 →
  (λ e, if bool_decide (e.1 = (u, v)) then (u, v, w) else e) <$> es = es.
Proof.
  induction es as [|[k x] es IH]; csimpl; [done|].
  intros [Hk Hn]%not_elem_of_cons. rewrite IH by done.
  rewrite bool_decide_eq_false_2; [done|]. simpl. congruence.
Qed.

Lemma sum_es_set_weight es u v w :
  NoDup es.*1 →
  sum_es (set_weight es u v w) =
  (sum_es es - default 0 (lookup_weight es u v) + w)%Z.
Proof.
  intros Hnd. unfold set_weight. case_bool_decide as Hin.
  - induction es as [|[k x] es IH]; csimpl.
    + by apply elem_of_nil in Hin.
    + apply NoDup_cons in Hnd as [Hk Hnd]. simpl in Hin.
      destruct (decide (k = (u, v))) as [->|Hne].
      * rewrite !(bool_decide_eq_true_2 ((u, v) = (u, v))) by done. simpl.
        rewrite update_absent by done. lia.
      * rewrite !(bool_decide_eq_false_2 (k = (u, v))) by done. simpl.
        apply elem_of_cons in Hin as [?|Hin]; [congruence|].
        rewrite IH by done. lia.
  - rewrite sum_es_app. simpl. apply lookup_weight_None in Hin. rewrite Hin.
    simpl. lia.
Qed.

Lemma total_weight_load_step G ab :
  wf_graph G → guarded ab → total_weight (load_step G ab) = (total_weight G + 1)%Z.
Proof.
  intros Hwf Hg. rewrite load_step_guarded by done.
  unfold total_weight. simpl.
  rewrite sum_es_set_weight by apply Hwf.
  rewrite next_weight_eq. unfold weight, edge_weight. simpl. lia.
Qed.

Lemma total_weight_foldl_load G ps :
  wf_graph G → Forall guarded ps →
  total_weight (foldl load_step G ps) = (total_weight G + Z.of_nat (length ps))%Z.
Proof.
  revert G. induction ps as [|ab ps IH]; intros G Hwf Hg; simpl; [lia|].
  apply Forall_cons in Hg as [Hab Hg].
  rewrite IH by auto using wf_load_step.
  rewrite total_weight_load_step by done. lia.
Qed.

Lemma guarded_zip_tail words :
  Forall (λ t, t ≠ "") words → Forall guarded (zip words (tail words)).
Proof.
  intros Hw. apply Forall_forall. intros [a b] Hin. split; simpl.
  - apply elem_of_zip_l in Hin. by eapply Forall_forall in Hw.
  - apply elem_of_zip_r in Hin.
    destruct words as [|t ws]; simpl in *; [by apply elem_of_nil in Hin|].
    apply Forall_cons in Hw as [_ Hw]. by eapply Forall_forall in Hw.
Qed.

Lemma length_zip_tail (words : list string) :
  length (zip words (tail words)) = length words - 1.
Proof.
  destruct words as [|t ws]; [done|]. rewrite length_zip. cbn [tail length]. lia.
Qed.

Lemma filter_all {A} (P : A → Prop) `{∀ x, Decision (P x)} (l : list A) :
  Forall P l → filter P l = l.
Proof.
  induction 1 as [|x l Hx Hl IH]; [done|].
  rewrite filter_cons, decide_True by done. by rewrite IH.
Qed.

Lemma bridge_words_spec_witness :
  bridge_words sample_graph "quick" "banana" = [] ∧
  ("brown" ∈ bridge_words sample_graph "quick" "fox" ↔
   has_edge sample_graph "quick" "brown" = true ∧
   has_edge sample_graph "brown" "fox" = true).
Proof.
  split.
  - apply (bridge_words_spec sample_graph "quick" "banana"). right.
    apply contains_false. vm_compute. reflexivity.
  - apply (bridge_words_spec sample_graph "quick" "fox").
    split; apply contains_true; vm_compute; reflexivity.
Defined.

Lemma split_ws_nonempty cur s : Forall (λ t, t ≠ "") (split_ws cur s).
Proof.
  revert cur. induction s as [|c s IH]; intros cur; simpl.
  - case_bool_decide; [apply Forall_nil_2|]. by apply Forall_singleton.
  - destruct (is_space c); [|apply IH].
    case_bool_decide; [apply IH|]. apply Forall_cons. split; [done|apply IH].
Qed.

Lemma tokenize_nonempty text : Forall (λ t, t ≠ "") (tokenize text).
Proof. apply split_ws_nonempty. Qed.

Lemma read_words_nonempty lines : Forall (λ t, t ≠ "") (read_words lines).
Proof.
  apply Forall_forall. intros t (line & Ht & _)%list_elem_of_bind.
  by eapply Forall_forall in Ht; [|apply tokenize_nonempty].
Qed.

(** C6. For a sequence of tokens (non-empty strings), the loop of [load_file]
    calls [add_edge] once per adjacent pair, that is [len(tokens) - 1] times;
    a call for a pair that is an edge already leaves the set of edges as it
    is and adds one to the weight of that edge; the graph built has no
    parallel edges, the weight of every edge [(a, b)] is the number of
    positions where [a] is followed by [b], and all weights add up to the
    number of adjacent pairs. *)
Theorem load_words_counts G0 words :
  Forall (λ t, t ≠ "") words →
  let G := load_words G0 words in
  length (add_edge_calls words) = length words - 1 ∧
  G = foldl (λ H ab, add_edge H ab.1 ab.2 (next_weight H ab.1 ab.2))
        empty_graph (add_edge_calls words) ∧
  (∀ H a b, a ≠ "" → b ≠ "" → has_edge H a b = true →
     edge_keys (load_step H (a, b)) = edge_keys H ∧
     weight (load_step H (a, b)) (a, b) = (weight H (a, b) + 1)%Z) ∧
  NoDup (edge_keys G) ∧
  (∀ a b, has_edge G a b = true ↔ 0 < adjacent_count a b words) ∧
  (∀ a b w, (a, b, w) ∈ g_edges G → w = Z.of_nat (adjacent_count a b words)) ∧
  total_weight G = Z.of_nat (length words - 1).
Proof.
  intros Hw G.
  pose proof (guarded_zip_tail words Hw) as Hg.
  assert (Hwf : wf_graph G) by apply wf_foldl_load, wf_empty_graph.
  assert (Hpos : positive_weights G).
  { apply positive_foldl_load. intros e Hin. by apply elem_of_nil in Hin. }
  assert (Hcount : ∀ a b, weight G (a, b) = Z.of_nat (adjacent_count a b words)).
  { intros a b. unfold G, load_words. rewrite weight_foldl_load by done.
    unfold adjacent_count. by cbn. }
  split_and!.
  - unfold add_edge_calls. rewrite <-length_zip_tail. f_equal.
    apply filter_all.
    eapply Forall_impl; [exact Hg|]. intros [a b] [Ha Hb]. unfold truthy. simpl in *.
    by rewrite !bool_decide_eq_false_2.
  - apply foldl_load_calls.
  - intros H a b Ha Hb He. rewrite load_step_guarded by done. simpl fst; simpl snd.
    rewrite edge_keys_add_edge, He, weight_add_edge, next_weight_eq.
    by rewrite bool_decide_eq_true_2.
  - apply Hwf.
  - intros a b. rewrite positive_has_edge, Hcount by done. lia.
  - intros a b w Hin. rewrite <-Hcount. unfold weight, edge_weight. simpl.
    erewrite lookup_weight_NoDup; [done|apply Hwf|done].
  - unfold G, load_words. rewrite total_weight_foldl_load; [|apply wf_empty_graph|done].
    rewrite length_zip_tail. by cbn.
Qed.

Lemma load_words_counts_witness :
  Forall (λ t, t ≠ "") sample_words ∧
  total_weight (load_words empty_graph sample_words)
  = Z.of_nat (length sample_words - 1).
Proof.
  assert (Hw : Forall (λ t, t ≠ "") sample_words).
  { unfold sample_words. repeat (apply Forall_cons; split; [done|]). apply Forall_nil_2. }
  split; [exact Hw|].
  apply (load_words_counts empty_graph sample_words Hw).
Defined.

(** The same for the words read from any text. *)
Lemma load_file_counts G0 lines :
  let words := read_words lines in
  let G := load_file G0 lines in
  length (add_edge_calls words) = length words - 1 ∧
  NoDup (edge_keys G) ∧
  (∀ a b w, (a, b, w) ∈ g_edges G → w = Z.of_nat (adjacent_count a b words)) ∧
  total_weight G = Z.of_nat (length words - 1).
Proof.
  intros words G.
  pose proof (guarded_zip_tail words (read_words_nonempty lines)) as Hg.
  assert (Hwf : wf_graph G) by apply wf_foldl_load, wf_empty_graph.
  split_and!.
  - unfold add_edge_calls. rewrite <-length_zip_tail. f_equal.
    apply filter_all. eapply Forall_impl; [exact Hg|].
    intros [a b] [Ha Hb]. unfold truthy. simpl in *.
    by rewrite !bool_decide_eq_false_2.
  - apply Hwf.
  - intros a b w Hin.
    assert (weight G (a, b) = w) as <-.
    { unfold weight, edge_weight. simpl.
      erewrite lookup_weight_NoDup; [done|apply Hwf|done]. }
    unfold G, load_file, load_words. rewrite weight_foldl_load by done.
    unfold adjacent_count. by cbn.
  - unfold G, load_file, load_words.
    rewrite total_weight_foldl_load; [|apply wf_empty_graph|done].
    rewrite length_zip_tail. by cbn.
Qed.

(** C10. Rebuilding the graph from exactly one token leaves a graph with no
    node and no edge, whatever the graph was before: the token itself is not
    a node of the result. *)
Theorem load_single_token G0 t :
  let G := load_words G0 [t] in
  g_nodes G = [] ∧ g_edges G = [] ∧ len G = 0 ∧ size G = 0 ∧
  contains G t = false.
Proof. by cbn. Qed.

(** ** The random walk *)

Lemma steps_snoc (l : list string) x y :
  last l = Some x → steps (l ++ [y]) = steps l ++ [(x, y)].
Proof.
  unfold steps. induction l as [|a l IH]; [done|].
  destruct l as [|b l]; simpl.
  - by intros [= ->].
  - intros Hl. f_equal. by apply IH.
Qed.

Lemma length_steps (l : list string) : length (steps l) = length l - 1.
Proof. apply length_zip_tail. Qed.

Lemma random_choice_elem rnd k x0 xs :
  xs ≠ [] → random_choice rnd k x0 xs ∈ xs.
Proof.
  intros Hne. unfold random_choice. apply list_elem_of_In, nth_In.
  apply Nat.mod_upper_bound. by destruct xs.
Qed.

Lemma walk_inv_from G node : walk_inv G (walk_from node).
Proof.
  split; simpl; [done|apply NoDup_nil_2| |].
  - intros e. rewrite elem_of_empty, elem_of_nil. done.
  - intros e He. by apply elem_of_nil in He.
Qed.

Lemma walk_inv_next G st next_node :
  walk_inv G st →
  next_node ∈ successors G (w_node st) →
  (w_node st, next_node) ∉ w_edges st →
  walk_inv G (mkWalk next_node (w_visited st ++ [next_node])
                ({[ (w_node st, next_node) ]} ∪ w_edges st)).
Proof.
  intros [Hl Hnd He Hg] Hs Hn. split; simpl.
  - by rewrite last_snoc.
  - rewrite (steps_snoc _ _ _ Hl). apply NoDup_app. split_and!; [done| |apply NoDup_singleton].
    intros e Hin ->%list_elem_of_singleton. by apply Hn, He.
  - intros e. rewrite (steps_snoc _ _ _ Hl), elem_of_union, elem_of_singleton,
      elem_of_app, list_elem_of_singleton, He. tauto.
  - intros e. rewrite (steps_snoc _ _ _ Hl), elem_of_app, list_elem_of_singleton.
    intros [Hin| ->]; [by apply Hg|]. by apply elem_of_successors.
Qed.

Lemma walk_inv_bound G st :
  walk_inv G st → length (steps (w_visited st)) ≤ size G.
Proof.
  intros [_ Hnd _ Hg]. unfold size. rewrite <-(length_fmap fst (g_edges G)).
  apply submseteq_length, NoDup_submseteq; done.
Qed.

Lemma walk_loop_final G rnd stop fuel i st r :
  walk_inv G st → walk_loop G rnd stop fuel i st = Some r → walk_final G stop r.
Proof.
  revert i st. induction fuel as [|fuel IH]; intros i st Hinv; simpl; [done|].
  destruct (stop i) eqn:Hstop.
  { intros [= <-]. split; [done|]. simpl. by exists i. }
  destruct (successors G (w_node st)) as [|s0 succ] eqn:Hsucc.
  { intros [= <-]. by split. }
  assert (Hel : random_choice rnd (S i) s0 (s0 :: succ) ∈ successors G (w_node st)).
  { rewrite Hsucc. by apply random_choice_elem. }
  case_bool_decide as Hin.
  - intros [= <-]. split; [done|]. simpl. eexists. split; [exact Hel|].
    by apply Hinv.
  - apply IH. by apply walk_inv_next.
Qed.

Lemma walk_loop_terminates G rnd stop fuel i st :
  walk_inv G st →
  size G < fuel + length (steps (w_visited st)) →
  is_Some (walk_loop G rnd stop fuel i st).
Proof.
  revert i st. induction fuel as [|fuel IH]; intros i st Hinv Hlt.
  { apply walk_inv_bound in Hinv. simpl in Hlt. lia. }
  simpl. destruct (stop i); [by eexists|].
  destruct (successors G (w_node st)) as [|s0 succ] eqn:Hsucc; [by eexists|].
  case_bool_decide as Hin; [by eexists|].
  apply IH.
  - apply walk_inv_next; [done| |done]. rewrite Hsucc. by apply random_choice_elem.
  - simpl. rewrite (steps_snoc _ _ _ (inv_last _ _ Hinv)), length_app. simpl. lia.
Qed.

Lemma walk_loop_more_fuel G rnd stop fuel fuel' i st r :
  walk_loop G rnd stop fuel i st = Some r → fuel ≤ fuel' →
  walk_loop G rnd stop fuel' i st = Some r.
Proof.
  revert fuel' i st. induction fuel as [|fuel IH]; intros fuel' i st; simpl; [done|].
  intros Hr Hle. destruct fuel' as [|fuel']; [lia|]. simpl.
  destruct (stop i); [done|].
  destruct (successors G (w_node st)) as [|s0 succ]; [done|].
  case_bool_decide; [done|]. apply IH; [done|lia].
Qed.

(** C4. Whatever the graph, the start node, the random draws and the stop
    event, the walk comes to an end with a trace in which no ordered pair of
    consecutive nodes occurs twice.  When it ends at a node without
    successors, or because the successor drawn would repeat an edge of the
    trace, the trace still ends at the current node: the last turn appended
    nothing. *)
Theorem walk_never_repeats_edge G rnd stop start :
  ∃ status st,
    walk_loop G rnd stop (S (size G)) 0 (walk_from start) = Some (status, st) ∧
    NoDup (steps (w_visited st)) ∧
    last (w_visited st) = Some (w_node st) ∧
    match status with
    | DeadEnd => successors G (w_node st) = []
    | CycleDetected =>
        ∃ next_node, next_node ∈ successors G (w_node st) ∧
                     (w_node st, next_node) ∈ steps (w_visited st)
    | Cancelled => ∃ i, stop i = true
    | EmptyChoice => False
    end.
Proof.
  destruct (walk_loop_terminates G rnd stop (S (size G)) 0 (walk_from start))
    as [[status st] Hr]; [apply walk_inv_from|simpl; lia|].
  exists status, st. split; [done|].
  apply walk_loop_final in Hr as [Hinv Hst]; [|apply walk_inv_from].
  split_and!; [apply Hinv|apply Hinv|done].
Qed.

(** C9. Whatever the graph (with [E] edges), the start node and the random
    draws, and also when the stop event is never set, the loop leaves after
    at most [E + 1] turns: every turn that does not leave records an edge of
    the graph that the walk has not used before, so that at most [E] nodes
    are appended and the trace has at most [E + 1] nodes.  More turns
    allowed change nothing. *)
Theorem walk_terminates G rnd stop start :
  ∃ status st,
    (∀ fuel, size G < fuel →
       walk_loop G rnd stop fuel 0 (walk_from start) = Some (status, st)) ∧
    (∀ e, e ∈ w_edges st ↔ e ∈ steps (w_visited st)) ∧
    (∀ e, e ∈ w_edges st → e ∈ edge_keys G) ∧
    NoDup (steps (w_visited st)) ∧
    length (steps (w_visited st)) ≤ size G ∧
    length (w_visited st) ≤ size G + 1.
Proof.
  destruct (walk_loop_terminates G rnd stop (S (size G)) 0 (walk_from start))
    as [[status st] Hr]; [apply walk_inv_from|simpl; lia|].
  exists status, st. split.
  { intros fuel Hf. eapply walk_loop_more_fuel; [exact Hr|lia]. }
  apply walk_loop_final in Hr as [Hinv _]; [|apply walk_inv_from].
  pose proof (walk_inv_bound _ _ Hinv) as Hb. simpl in *.
  destruct Hinv as [Hl Hnd He Hg]. split_and!; try done.
  - intros e. rewrite He. apply Hg.
  - rewrite length_steps in Hb. lia.
Qed.

(** The same for [walk_thread], which draws its start node. *)
Lemma walk_thread_trace G rnd stop :
  ∃ status trace,
    walk_thread G rnd stop (S (size G)) = Some (status, trace) ∧
    NoDup (steps trace) ∧ length trace ≤ size G + 1.
Proof.
  unfold walk_thread. destruct (g_nodes G) as [|n0 nodes] eqn:Hn.
  { exists EmptyChoice, []. split_and!; [done|apply NoDup_nil_2|simpl; lia]. }
  set (start := random_choice rnd 0 n0 (n0 :: nodes)).
  destruct (walk_loop_terminates G rnd stop (S (size G)) 0 (walk_from start))
    as [[status st] Hr]; [apply walk_inv_from|simpl; lia|].
  exists status, (w_visited st). rewrite Hr. split; [done|].
  apply walk_loop_final in Hr as [Hinv _]; [|apply walk_inv_from].
  pose proof (walk_inv_bound _ _ Hinv) as Hb. rewrite length_steps in Hb.
  simpl in *. split; [apply Hinv|lia].
Qed.

(** ** PageRank: the shape of an iteration *)

Section SweepFacts.
Context {F : Type} `{Arith F}.
Variables (G : DiGraph) (d : F).

Lemma foldl_sweep_lookup (prev : gmap string F) dangling nodes pr u :
  foldl (sweep_step G d prev dangling) pr nodes !! u =
  if decide (u ∈ nodes) then Some (new_rank G d prev dangling u) else pr !! u.
Proof.
  revert pr. induction nodes as [|a nodes IH]; intros pr; simpl; [done|].
  - rewrite IH. unfold sweep_step.
    destruct (decide (u ∈ nodes)) as [Hin|Hnin].
    + by rewrite decide_True by (by apply list_elem_of_further).
    + destruct (decide (u = a)) as [->|Hne].
      * rewrite lookup_insert_eq. by rewrite decide_True by apply list_elem_of_here.
      * rewrite lookup_insert_ne by done.
        rewrite decide_False; [done|]. rewrite elem_of_cons. tauto.
Qed.

Lemma iteration_lookup (prev : gmap string F) u :
  iteration G d prev !! u =
  if decide (u ∈ g_nodes G)
  then Some (new_rank G d prev (dangling_mass G prev) u)
  else prev !! u.
Proof. apply foldl_sweep_lookup. Qed.

Lemma initial_ranks_lookup u :
  initial_ranks G !! u =
  if decide (u ∈ g_nodes G) then Some (fdiv (of_int 1) (N G)) else None.
Proof.
  unfold initial_ranks. generalize (fdiv (of_int 1) (N G)). intros x.
  assert (∀ nodes (m : gmap string F),
    foldl (λ m u, <[u:=x]> m) m nodes !! u =
    if decide (u ∈ nodes) then Some x else m !! u) as Hgen.
  { induction nodes as [|a nodes IH]; intros m; simpl; [done|].
    - rewrite IH. destruct (decide (u ∈ nodes)) as [Hin|Hnin].
      + by rewrite decide_True by (by apply list_elem_of_further).
      + destruct (decide (u = a)) as [->|Hne].
        * rewrite lookup_insert_eq. by rewrite decide_True by apply list_elem_of_here.
        * rewrite lookup_insert_ne by done.
          rewrite decide_False; [done|]. rewrite elem_of_cons. tauto. }
  rewrite Hgen. by rewrite lookup_empty.
Qed.
(** The keys of the rank dictionaries are the nodes all along, and the nodes
    read in an iteration are keys: no lookup of the function can miss. *)
Lemma keys_initial_ranks : keys_are_nodes G (initial_ranks G).
Proof.
  intros u. rewrite initial_ranks_lookup. destruct (decide _) as [Hu|Hu].
  - split; [done|by eexists].
  - split; [by intros [? ?]|done].
Qed.

Lemma keys_iteration pr : keys_are_nodes G pr → keys_are_nodes G (iteration G d pr).
Proof.
  intros Hk u. rewrite iteration_lookup. destruct (decide _) as [Hu|Hu].
  - split; [done|by eexists].
  - apply Hk.
Qed.

Lemma keys_iterate tol max_iter pr :
  keys_are_nodes G pr → keys_are_nodes G (iterate G d tol max_iter pr).
Proof.
  revert pr. induction max_iter as [|n IH]; intros pr Hk; [done|].
  cbn [iterate].
  destruct (flt (change G (iteration G d pr) pr) tol); [|apply IH];
    by apply keys_iteration.
Qed.

(** X13. Whatever the arithmetic, the dictionary that
    [pagerank_with_dangling] returns has exactly the nodes of the graph as
    keys; for the empty graph it is empty. *)
Lemma keys_pagerank tol max_iter :
  keys_are_nodes G (pagerank_with_dangling G d tol max_iter).
Proof.
  unfold pagerank_with_dangling. case_bool_decide as Hlen.
  - intros u. rewrite lookup_empty. unfold len in Hlen.
    apply length_zero_iff_nil in Hlen. rewrite Hlen.
    split; [by intros [? ?]|by intros ?%elem_of_nil].
  - apply keys_iterate, keys_initial_ranks.
Qed.

Lemma predecessors_nodes u v :
  wf_graph G → v ∈ predecessors G u → v ∈ g_nodes G.
Proof. intros Hwf Hv%elem_of_predecessors. by eapply wf_src. Qed.

(** The divisions of an iteration are by [len(G)], which is not 0 when the
    loop runs, and by the out-degree of a predecessor, which is not 0. *)
Lemma out_degree_predecessor u v : v ∈ predecessors G u → 0 < out_degree G v.
Proof.
  intros Hv%elem_of_predecessors%elem_of_successors. unfold out_degree.
  destruct (successors G v); [by apply elem_of_nil in Hv|simpl; lia].
Qed.
End SweepFacts.

(** C3. In an iteration started from the rank vector [prev], the rank
    written for a node [u] is
    [(1 - d)/N + d * (dangling/N + sum of prev[v]/out_degree(v) over the
    predecessors v of u)], where [dangling] is the sum of [prev] over the
    nodes without successors: every rank read is one of [prev], also for the
    nodes written late in the sweep.  This holds for any arithmetic. *)
Theorem iteration_reads_previous {F : Type} `{Arith F}
    (G : DiGraph) (d : F) (prev : gmap string F) (u : string) :
  u ∈ g_nodes G →
  let n := of_int (Z.of_nat (len G)) in
  let dangling :=
    psum (rank prev <$> filter (λ v, length (successors G v) = 0) (g_nodes G)) in
  let incoming :=
    psum ((λ v, fdiv (rank prev v) (of_int (Z.of_nat (length (successors G v)))))
            <$> predecessors G u) in
  rank (iteration G d prev) u =
  fadd (fdiv (fsub (of_int 1) d) n) (fmul d (fadd (fdiv dangling n) incoming)).
Proof.
  intros Hu n dangling incoming. unfold rank.
  rewrite iteration_lookup, decide_True by done. reflexivity.
Qed.

(** ** PageRank in exact arithmetic: sums of rationals *)

Lemma foldl_Qcplus (a : Qc) xs : foldl Qcplus a xs = (a + sumq xs)%Qc.
Proof.
  revert a. induction xs as [|x xs IH]; intros a; simpl.
  - by rewrite Qcplus_0_r.
  - by rewrite IH, Qcplus_assoc.
Qed.

Lemma psum_sumq (xs : list Qc) : psum xs = sumq xs.
Proof.
  unfold psum. cbn [fadd of_int Qc_arith].
  by rewrite foldl_Qcplus, Z2Qc_inj_0, Qcplus_0_l.
Qed.

Lemma sumq_app xs ys : sumq (xs ++ ys) = (sumq xs + sumq ys)%Qc.
Proof.
  induction xs as [|x xs IH]; simpl; [by rewrite Qcplus_0_l|].
  by rewrite IH, Qcplus_assoc.
Qed.

Lemma sumq_perm xs ys : xs ≡ₚ ys → sumq xs = sumq ys.
Proof.
  induction 1 as [|x xs ys _ IH|x y xs|xs ys zs _ IH1 _ IH2]; simpl;
    [done|by rewrite IH|ring|congruence].
Qed.

Lemma sumq_add {A} (f g : A → Qc) l :
  sumq ((λ x, f x + g x)%Qc <$> l) = (sumq (f <$> l) + sumq (g <$> l))%Qc.
Proof. induction l as [|x l IH]; csimpl; [ring|]. rewrite IH. ring. Qed.

Lemma sumq_scale {A} (c : Qc) (f : A → Qc) l :
  sumq ((λ x, c * f x)%Qc <$> l) = (c * sumq (f <$> l))%Qc.
Proof. induction l as [|x l IH]; csimpl; [ring|]. rewrite IH. ring. Qed.

Lemma sumq_const {A} (c : Qc) (l : list A) :
  sumq ((λ _, c) <$> l) = (Qc_of_Z (Z.of_nat (length l)) * c)%Qc.
Proof.
  induction l as [|x l IH]; csimpl.
  - change (Z.of_nat 0) with 0%Z. rewrite Z2Qc_inj_0. ring.
  - cbn [length]. rewrite IH, Nat2Z.inj_succ, <-Z.add_1_r, Z2Qc_inj_add, Z2Qc_inj_1. ring.
Qed.

Lemma sumq_zero {A} (l : list A) : sumq ((λ _, 0%Qc) <$> l) = 0%Qc.
Proof. rewrite sumq_const. ring. Qed.

Lemma sumq_ext {A} (f g : A → Qc) l :
  (∀ x, x ∈ l → f x = g x) → sumq (f <$> l) = sumq (g <$> l).
Proof.
  induction l as [|x l IH]; intros Hfg; csimpl; [done|].
  rewrite Hfg by apply list_elem_of_here. rewrite IH; [done|].
  intros y Hy. by apply Hfg, list_elem_of_further.
Qed.

Lemma sumq_nonneg xs : Forall (λ x, 0 ≤ x)%Qc xs → (0 ≤ sumq xs)%Qc.
Proof.
  induction 1 as [|x xs Hx _ IH]; simpl; [done|].
  by apply Qcplus_nonneg_nonneg.
Qed.

Lemma sumq_filter {A} (P : A → Prop) `{∀ x, Decision (P x)} (f : A → Qc) l :
  sumq (f <$> filter P l) = sumq ((λ x, if decide (P x) then f x else 0%Qc) <$> l).
Proof.
  induction l as [|x l IH]; csimpl; [done|].
  rewrite filter_cons. destruct (decide (P x)); csimpl; rewrite IH; [done|ring].
Qed.

Lemma sumq_indicator `{EqDecision K} (k : K) (c : Qc) ns :
  NoDup ns →
  sumq ((λ u, if decide (k = u) then c else 0%Qc) <$> ns) =
  if decide (k ∈ ns) then c else 0%Qc.
Proof.
  induction 1 as [|u ns Hu Hnd IH]; csimpl; [done|].
  rewrite IH. destruct (decide (k = u)) as [->|Hne].
  - rewrite decide_False by done. rewrite decide_True by apply list_elem_of_here. ring.
  - destruct (decide (k ∈ ns)).
    + rewrite decide_True by (by apply list_elem_of_further). ring.
    + rewrite decide_False; [ring|]. rewrite elem_of_cons. tauto.
Qed.

(** Summing a quantity over the edges, grouped by an endpoint. *)
Lemma sumq_group {E} `{EqDecision K} (key : E → K) (g : E → Qc) ns es :
  NoDup ns → (∀ e, e ∈ es → key e ∈ ns) →
  sumq ((λ u, sumq (g <$> filter (λ e, key e = u) es)) <$> ns) = sumq (g <$> es).
Proof.
  intros Hnd. induction es as [|e es IH]; intros Hkey; csimpl.
  - apply sumq_zero.
  - rewrite <-IH by (intros e' He'; by apply Hkey, list_elem_of_further).
    rewrite <-(decide_True (A:=Qc) (g e) 0%Qc (Hkey e (list_elem_of_here _ _))).
    rewrite <-(sumq_indicator (key e) (g e) ns Hnd), <-sumq_add.
    apply sumq_ext. intros u _. rewrite filter_cons.
    destruct (decide (key e = u)); csimpl; [done|ring].
Qed.

Lemma Qcinv_nonneg (y : Qc) : (0 ≤ y → 0 ≤ / y)%Qc.
Proof.
  intros Hy. apply Qcle_lt_or_eq in Hy as [Hy| <-].
  - by apply Qclt_le_weak, Qcinv_pos.
  - apply Qcle_refl.
Qed.

Lemma Qcdiv_nonneg (x y : Qc) : (0 ≤ x → 0 ≤ y → 0 ≤ x / y)%Qc.
Proof. intros Hx Hy. apply Qcmult_nonneg_nonneg; [done|by apply Qcinv_nonneg]. Qed.

Lemma Qc_of_nat_nonneg (n : nat) : (0 ≤ Qc_of_Z (Z.of_nat n))%Qc.
Proof. rewrite <-Z2Qc_inj_0. apply (proj1 (Z2Qc_inj_le 0 (Z.of_nat n))). lia. Qed.

Lemma Qc_of_nat_ne_0 (n : nat) : n ≠ 0 → Qc_of_Z (Z.of_nat n) ≠ 0%Qc.
Proof. intros Hn. rewrite <-Z2Qc_inj_0. intros Heq%Z2Qc_inj. lia. Qed.

(** ** PageRank in exact arithmetic: rank mass *)

Section RankMass.
Variable G : DiGraph.
Hypothesis Hwf : wf_graph G.
Variable d : Qc.
Implicit Types prev pr : gmap string Qc.

Lemma incoming_sumq prev u :
  incoming G prev u =
  sumq ((λ e, rank prev e.1.1 / Qc_of_Z (Z.of_nat (out_degree G e.1.1)))%Qc
          <$> filter (λ e, e.1.2 = u) (g_edges G)).
Proof.
  unfold incoming, predecessors. rewrite psum_sumq, <-list_fmap_compose. done.
Qed.

Lemma sum_incoming prev :
  sumq (incoming G prev <$> g_nodes G) =
  sumq ((λ v, if decide (out_degree G v = 0) then 0%Qc else rank prev v)
          <$> g_nodes G).
Proof.
  destruct Hwf as [Hn Hk Hs Hd].
  set (h := λ e : string * string * Z,
         (rank prev e.1.1 / Qc_of_Z (Z.of_nat (out_degree G e.1.1)))%Qc).
  rewrite (sumq_ext _ (λ u, sumq (h <$> filter (λ e, e.1.2 = u) (g_edges G))))
    by (intros u _; apply incoming_sumq).
  rewrite (sumq_group (λ e, e.1.2) h) by
    (try done; intros [[a b] w] He; apply (Hd a b), list_elem_of_fmap; by exists (a, b, w)).
  rewrite <-(sumq_group (λ e, e.1.1) h (g_nodes G)) by
    (try done; intros [[a b] w] He; apply (Hs a b), list_elem_of_fmap; by exists (a, b, w)).
  apply sumq_ext. intros v _.
  rewrite (sumq_ext h (λ _, (rank prev v / Qc_of_Z (Z.of_nat (out_degree G v)))%Qc)).
  2:{ intros e [<- _]%list_elem_of_filter. done. }
  rewrite sumq_const.
  replace (length (filter (λ e, e.1.1 = v) (g_edges G))) with (out_degree G v)
    by (unfold out_degree, successors; by rewrite length_fmap).
  destruct (decide (out_degree G v = 0)) as [->|Hne].
  - change (Z.of_nat 0) with 0%Z. rewrite Z2Qc_inj_0. ring.
  - apply Qcmult_div_r. by apply Qc_of_nat_ne_0.
Qed.

Lemma dangling_sumq prev :
  dangling_mass G prev =
  sumq ((λ v, if decide (out_degree G v = 0) then rank prev v else 0%Qc)
          <$> g_nodes G).
Proof. unfold dangling_mass. by rewrite psum_sumq, sumq_filter. Qed.

Lemma mass_conserved prev :
  (dangling_mass G prev + sumq (incoming G prev <$> g_nodes G))%Qc =
  sumq (rank prev <$> g_nodes G).
Proof.
  rewrite dangling_sumq, sum_incoming, <-sumq_add. apply sumq_ext.
  intros v _. destruct (decide (out_degree G v = 0)); ring.
Qed.

Lemma new_rank_Qc prev dangling u :
  new_rank G d prev dangling u =
  ((1 - d) / N G + d * (dangling / N G + incoming G prev u))%Qc.
Proof.
  unfold new_rank. cbn [fadd fsub fmul fdiv of_int Qc_arith].
  by rewrite Z2Qc_inj_1.
Qed.

Lemma sum_new_rank prev :
  len G ≠ 0 →
  sumq (rank prev <$> g_nodes G) = 1%Qc →
  sumq (new_rank G d prev (dangling_mass G prev) <$> g_nodes G) = 1%Qc.
Proof.
  intros Hlen Hsum. pose proof (mass_conserved prev) as Hmass.
  rewrite Hsum in Hmass.
  set (dg := dangling_mass G prev) in *.
  rewrite (sumq_ext _ (λ u, ((1 - d) / N G + d * (dg / N G))
                            + d * incoming G prev u)%Qc).
  2:{ intros u _. rewrite new_rank_Qc. ring. }
  rewrite sumq_add, sumq_const, sumq_scale.
  replace (sumq (incoming G prev <$> g_nodes G)) with (1 - dg)%Qc
    by (rewrite <-Hmass; ring).
  assert (N G ≠ 0%Qc) as HN by (by apply Qc_of_nat_ne_0).
  change (Qc_of_Z (Z.of_nat (length (g_nodes G)))) with (N (F:=Qc) G).
  field. done.
Qed.

Lemma incoming_nonneg prev u :
  (∀ v, 0 ≤ rank prev v)%Qc → (0 ≤ incoming G prev u)%Qc.
Proof.
  intros Hp. unfold incoming. rewrite psum_sumq. apply sumq_nonneg.
  apply Forall_fmap, Forall_forall. intros v _. simpl.
  apply Qcdiv_nonneg; [apply Hp|apply Qc_of_nat_nonneg].
Qed.

Lemma dangling_nonneg prev :
  (∀ v, 0 ≤ rank prev v)%Qc → (0 ≤ dangling_mass G prev)%Qc.
Proof.
  intros Hp. unfold dangling_mass. rewrite psum_sumq. apply sumq_nonneg.
  apply Forall_fmap, Forall_forall. intros v _. apply Hp.
Qed.

Lemma new_rank_nonneg prev u :
  (0 ≤ d)%Qc → (d ≤ 1)%Qc → (∀ v, 0 ≤ rank prev v)%Qc →
  (0 ≤ new_rank G d prev (dangling_mass G prev) u)%Qc.
Proof.
  intros Hd0 Hd1 Hp. rewrite new_rank_Qc.
  assert (0 ≤ N G)%Qc as HN by apply Qc_of_nat_nonneg.
  apply Qcplus_nonneg_nonneg.
  - apply Qcdiv_nonneg; [|done]. apply Qcle_minus_iff in Hd1. exact Hd1.
  - apply Qcmult_nonneg_nonneg; [done|]. apply Qcplus_nonneg_nonneg.
    + apply Qcdiv_nonneg; [by apply dangling_nonneg|done].
    + by apply incoming_nonneg.
Qed.
End RankMass.

Section RankInvariant.
Variable G : DiGraph.
Hypothesis Hwf : wf_graph G.
Hypothesis Hlen : len G ≠ 0.
Variables d tol : Qc.
Hypothesis Hd0 : (0 ≤ d)%Qc.
Hypothesis Hd1 : (d ≤ 1)%Qc.

Lemma rank_inv_initial : rank_inv G (initial_ranks G).
Proof.
  assert (N G ≠ 0%Qc) as HN by (by apply Qc_of_nat_ne_0).
  assert (∀ u, rank (initial_ranks G) u =
               if decide (u ∈ g_nodes G) then (1 / N G)%Qc else 0%Qc) as Hr.
  { intros u. unfold rank. rewrite initial_ranks_lookup.
    cbn [fdiv of_int Qc_arith]. rewrite Z2Qc_inj_1.
    destruct (decide _); simpl; [done|apply Z2Qc_inj_0]. }
  split.
  - intros u. rewrite initial_ranks_lookup. destruct (decide _) as [Hu|Hu].
    + split; [done|by eexists].
    + split; [by intros [? ?]|done].
  - intros u. rewrite Hr. destruct (decide _); [|done].
    apply Qcdiv_nonneg; [done|apply Qc_of_nat_nonneg].
  - rewrite (sumq_ext _ (λ _, (1 / N G)%Qc)).
    2:{ intros u Hu. by rewrite Hr, decide_True. }
    rewrite sumq_const. change (Qc_of_Z (Z.of_nat (length (g_nodes G)))) with (N (F:=Qc) G).
    field. done.
Qed.

Lemma rank_iteration pr u :
  rank (iteration G d pr) u =
  if decide (u ∈ g_nodes G) then new_rank G d pr (dangling_mass G pr) u
  else rank pr u.
Proof. unfold rank. rewrite iteration_lookup. by destruct (decide _). Qed.

Lemma rank_inv_iteration pr : rank_inv G pr → rank_inv G (iteration G d pr).
Proof.
  intros [Hdom Hnn Hsum]. split.
  - intros u. rewrite iteration_lookup. destruct (decide _) as [Hu|Hu].
    + split; [done|by eexists].
    + by rewrite Hdom.
  - intros u. rewrite rank_iteration. destruct (decide _); [|done].
    by apply new_rank_nonneg.
  - rewrite (sumq_ext _ (new_rank G d pr (dangling_mass G pr))).
    2:{ intros u Hu. by rewrite rank_iteration, decide_True. }
    by apply sum_new_rank.
Qed.

Lemma rank_inv_iterate max_iter pr :
  rank_inv G pr → rank_inv G (iterate G d tol max_iter pr).
Proof.
  revert pr. induction max_iter as [|n IH]; intros pr Hinv; simpl; [done|].
  case_bool_decide; [|apply IH]; by apply rank_inv_iteration.
Qed.

(** Without any edge every node is dangling, and an iteration yields the
    uniform vector. *)
Lemma iteration_no_edges pr u :
  g_edges G = [] → rank_inv G pr → u ∈ g_nodes G →
  iteration G d pr !! u = Some (1 / N G)%Qc.
Proof.
  intros He [_ _ Hsum] Hu. rewrite iteration_lookup, decide_True by done.
  f_equal. rewrite new_rank_Qc.
  assert (incoming G pr u = 0%Qc) as ->.
  { unfold incoming, predecessors. rewrite He. cbn. apply Z2Qc_inj_0. }
  assert (dangling_mass G pr = 1%Qc) as ->.
  { rewrite <-Hsum. unfold dangling_mass. rewrite psum_sumq. f_equal. f_equal.
    apply filter_all, Forall_forall. intros v _.
    unfold out_degree, successors. by rewrite He. }
  assert (N G ≠ 0%Qc) as HN by (by apply Qc_of_nat_ne_0).
  field. done.
Qed.

Lemma iterate_no_edges max_iter pr :
  g_edges G = [] → rank_inv G pr →
  (∀ u, u ∈ g_nodes G → pr !! u = Some (1 / N G)%Qc) →
  ∀ u, u ∈ g_nodes G → iterate G d tol max_iter pr !! u = Some (1 / N G)%Qc.
Proof.
  intros He. revert pr. induction max_iter as [|n IH]; intros pr Hinv Hu; simpl; [done|].
  case_bool_decide.
  - intros u Hin. by apply iteration_no_edges.
  - apply IH; [by apply rank_inv_iteration|].
    intros u Hin. by apply iteration_no_edges.
Qed.

Lemma rank_inv_values pr :
  rank_inv G pr → (map_to_list pr).*2 ≡ₚ rank pr <$> g_nodes G.
Proof.
  intros [Hdom _ _].
  set (L := (λ u, (u, rank pr u)) <$> g_nodes G).
  assert (L.*1 = g_nodes G) as HL1.
  { unfold L. rewrite <-list_fmap_compose. apply list_fmap_id. }
  assert (L.*2 = rank pr <$> g_nodes G) as HL2.
  { unfold L. by rewrite <-list_fmap_compose. }
  assert (NoDup L.*1) as Hnd by (rewrite HL1; apply Hwf).
  assert (pr = list_to_map L) as Heq.
  { apply map_eq. intros i. destruct (decide (i ∈ g_nodes G)) as [Hi|Hi].
    - symmetry. destruct (proj2 (Hdom i) Hi) as [x Hx].
      rewrite Hx. apply elem_of_list_to_map_1; [done|].
      apply list_elem_of_fmap. exists i. split; [|done].
      unfold rank. by rewrite Hx.
    - rewrite (proj1 (not_elem_of_list_to_map L i)) by (by rewrite HL1).
      apply eq_None_not_Some. by rewrite Hdom. }
  pose proof (map_to_list_to_map (M:=gmap string) L Hnd) as HP.
  rewrite <-Heq in HP. rewrite <-HL2. by apply fmap_Permutation.
Qed.
End RankInvariant.

(** C1. In exact rational arithmetic (the rounding of floats is not
    modelled), for a graph with at least one node and a damping factor
    between 0 and 1 (0.85 by default), whatever the tolerance and the bound
    on the iterations: the dictionary returned has the nodes as keys, all its
    values are non-negative and they add up to one.  Isolated and dangling
    nodes are covered; in a graph without any edge every rank is [1/N]. *)
Theorem pagerank_is_distribution G (d tol : Qc) max_iter :
  wf_graph G → 1 ≤ len G → (0 ≤ d)%Qc → (d ≤ 1)%Qc →
  let pr := pagerank_with_dangling G d tol max_iter in
  (∀ u, is_Some (pr !! u) ↔ u ∈ g_nodes G) ∧
  (∀ u x, pr !! u = Some x → (0 ≤ x)%Qc) ∧
  sumq ((map_to_list pr).*2) = 1%Qc ∧
  (g_edges G = [] →
   ∀ u, u ∈ g_nodes G → pr !! u = Some (1 / Qc_of_Z (Z.of_nat (len G)))%Qc).
Proof.
  intros Hwf Hlen Hd0 Hd1 pr.
  assert (len G ≠ 0) as Hne by lia.
  assert (pr = iterate G d tol max_iter (initial_ranks G)) as Hpr.
  { unfold pr, pagerank_with_dangling. by rewrite bool_decide_eq_false_2. }
  assert (rank_inv G pr) as Hinv.
  { rewrite Hpr. apply rank_inv_iterate; try done. by apply rank_inv_initial. }
  split_and!.
  - apply Hinv.
  - intros u x Hx. pose proof (ri_nonneg _ _ Hinv u) as Hu.
    unfold rank in Hu. by rewrite Hx in Hu.
  - rewrite (sumq_perm _ _ (rank_inv_values G Hwf pr Hinv)). apply Hinv.
  - intros He u Hu. rewrite Hpr.
    apply iterate_no_edges; try done; [by apply rank_inv_initial|].
    intros v Hv. rewrite initial_ranks_lookup, decide_True by done.
    cbn [fdiv of_int Qc_arith]. by rewrite Z2Qc_inj_1.
Qed.

Lemma wf_ab_graph : wf_graph ab_graph.
Proof. apply wf_add_edge, wf_empty_graph. Qed.

Lemma pagerank_is_distribution_witness :
  sumq ((map_to_list
           (pagerank_with_dangling ab_graph (Q2Qc (17 # 20)) (Q2Qc (1 # 10000000000)) 100)).*2)
  = 1%Qc.
Proof.
  apply (pagerank_is_distribution ab_graph (Q2Qc (17 # 20)) (Q2Qc (1 # 10000000000)) 100).
  - exact wf_ab_graph.
  - vm_compute. lia.
  - by vm_compute.
  - by vm_compute.
Defined.

Lemma iteration_reads_previous_witness :
  rank (iteration ab_graph (Q2Qc (17 # 20)) (initial_ranks ab_graph)) "b" =
  ((1 - Q2Qc (17 # 20)) / 2 + Q2Qc (17 # 20) * ((1 / 2) / 2 + (1 / 2) / 1))%Qc.
Proof.
  rewrite (iteration_reads_previous ab_graph (Q2Qc (17 # 20)) (initial_ranks ab_graph) "b").
  - apply Qc_is_canon. by vm_compute.
  - apply list_elem_of_In. vm_compute. tauto.
Defined.

(** ** Paths and their cost *)

Lemma steps_cons_cons (a b : string) l : steps (a :: b :: l) = (a, b) :: steps (b :: l).
Proof. done. Qed.

Lemma steps_app_cons (A : list string) x R :
  steps (A ++ x :: R) = steps (A ++ [x]) ++ steps (x :: R).
Proof.
  induction A as [|a A IH]; [done|].
  destruct A as [|b A]; [done|].
  simpl app in *. rewrite !steps_cons_cons, IH. done.
Qed.

Lemma cost_steps_app G es1 es2 :
  cost_steps G (es1 ++ es2) = (cost_steps G es1 + cost_steps G es2)%Z.
Proof. induction es1 as [|e es1 IH]; simpl; [done|]. rewrite IH. lia. Qed.

Lemma cost_steps_perm G es1 es2 :
  es1 ≡ₚ es2 → cost_steps G es1 = cost_steps G es2.
Proof.
  induction 1 as [|x xs ys _ IH|x y xs|xs ys zs _ IH1 _ IH2]; simpl;
    [done|by rewrite IH|lia|congruence].
Qed.

Lemma weight_nonneg G uv : positive_weights G → (0 ≤ weight G uv)%Z.
Proof.
  intros Hp. unfold weight. destruct (edge_weight G uv.1 uv.2) as [w|] eqn:Hw; simpl; [|done].
  apply lookup_weight_Some, Hp in Hw. simpl in Hw. lia.
Qed.

Lemma weight_edge_pos G uv :
  positive_weights G → uv ∈ edge_keys G → (1 ≤ weight G uv)%Z.
Proof.
  intros Hp Hin. destruct uv as [u v]. by apply positive_has_edge, has_edge_true.
Qed.

Lemma cost_steps_nonneg G es : positive_weights G → (0 ≤ cost_steps G es)%Z.
Proof.
  intros Hp. induction es as [|e es IH]; simpl; [done|].
  pose proof (weight_nonneg G e Hp). lia.
Qed.

Lemma cost_steps_pos G es :
  positive_weights G → es ≠ [] → Forall (λ uv, uv ∈ edge_keys G) es →
  (1 ≤ cost_steps G es)%Z.
Proof.
  intros Hp Hne Hall. destruct es as [|e es]; [done|]. simpl.
  apply Forall_cons in Hall as [He _].
  pose proof (weight_edge_pos G e Hp He). pose proof (cost_steps_nonneg G es Hp). lia.
Qed.

Lemma is_path_single G w : is_path G w w [w].
Proof. split_and!; [done|done|apply Forall_nil_2]. Qed.

Lemma not_NoDup_split (l : list string) :
  ¬ NoDup l → ∃ x A B C, l = A ++ x :: B ++ x :: C.
Proof.
  induction l as [|a l IH]; intros Hnd.
  - destruct Hnd. apply NoDup_nil_2.
  - destruct (decide (a ∈ l)) as [Hin|Hnin].
    + apply list_elem_of_split in Hin as (B & C & ->). by exists a, [], B, C.
    + destruct IH as (x & A & B & C & ->).
      { intros Hl. apply Hnd. by apply NoDup_cons. }
      by exists x, (a :: A), B, C.
Qed.

Lemma NoDup_steps (p : list string) : NoDup p → NoDup (steps p).
Proof.
  induction p as [|a p IH]; intros Hnd; [apply NoDup_nil_2|].
  apply NoDup_cons in Hnd as [Ha Hnd]. destruct p as [|b p]; [apply NoDup_nil_2|].
  rewrite steps_cons_cons. apply NoDup_cons. split; [|by apply IH].
  intros Hin. apply Ha. unfold steps in Hin. by apply elem_of_zip_l in Hin.
Qed.

(** Cutting a loop out of a path gives a path that costs less. *)
Lemma cut_loop G w1 w2 A x B C :
  positive_weights G →
  is_path G w1 w2 (A ++ x :: B ++ x :: C) →
  is_path G w1 w2 (A ++ x :: C) ∧
  (path_cost G (A ++ x :: C) < path_cost G (A ++ x :: B ++ x :: C))%Z.
Proof.
  intros Hp (Hh & Hl & Hall).
  assert (steps (A ++ x :: B ++ x :: C) =
          steps (A ++ [x]) ++ steps ((x :: B) ++ [x]) ++ steps (x :: C)) as E1.
  { rewrite (steps_app_cons A x (B ++ x :: C)). f_equal.
    apply (steps_app_cons (x :: B) x C). }
  assert (steps (A ++ x :: C) = steps (A ++ [x]) ++ steps (x :: C)) as E2
    by apply steps_app_cons.
  unfold is_path, path_cost. rewrite E1 in Hall |- *. rewrite E2.
  apply Forall_app in Hall as [HA [HB HC]%Forall_app].
  split; [split_and!|].
  - destruct A; done.
  - rewrite <-Hl, !(last_app_cons A).
    change (x :: B ++ x :: C) with ((x :: B) ++ x :: C).
    by rewrite (last_app_cons (x :: B)).
  - by apply Forall_app.
  - rewrite !cost_steps_app.
    assert (1 ≤ cost_steps G (steps ((x :: B) ++ [x])))%Z; [|lia].
    apply cost_steps_pos; [done| |done].
    destruct B; done.
Qed.

Lemma minimal_path_NoDup G w1 w2 p :
  positive_weights G → is_path G w1 w2 p →
  (∀ q, is_path G w1 w2 q → (path_cost G p ≤ path_cost G q)%Z) →
  NoDup p.
Proof.
  intros Hp Hpath Hmin. destruct (decide (NoDup p)) as [|Hnd]; [done|].
  apply not_NoDup_split in Hnd as (x & A & B & C & ->).
  destruct (cut_loop G w1 w2 A x B C Hp Hpath) as [Hq Hlt].
  apply Hmin in Hq. lia.
Qed.

Lemma mapM_edge_weight G es :
  Forall (λ uv, uv ∈ edge_keys G) es →
  mapM (λ uv, edge_weight G uv.1 uv.2) es = Some (weight G <$> es).
Proof.
  induction 1 as [|[u v] es He _ IH]; [done|].
  apply edge_weight_is_Some in He as [w Hw]. cbn.
  unfold weight at 1. simpl. rewrite Hw, IH. done.
Qed.

Lemma foldl_Zadd (a : Z) xs : foldl Z.add a xs = (a + foldr Z.add 0 xs)%Z.
Proof.
  revert a. induction xs as [|x xs IH]; intros a; simpl; [lia|]. rewrite IH. lia.
Qed.

Lemma sum_weights_edges G es :
  Forall (λ uv, uv ∈ edge_keys G) es →
  sum_weights G es = Some (cost_steps G es).
Proof.
  intros Hall. unfold sum_weights. rewrite mapM_edge_weight by done. simpl.
  f_equal. rewrite foldl_Zadd. clear Hall.
  induction es as [|e es IH]; csimpl in *; [done|]. lia.
Qed.

(** The length reported for a path that is traversed edge by edge. *)
Lemma reported_length G (p : list string) :
  NoDup (steps p) → Forall (λ uv, uv ∈ edge_keys G) (steps p) →
  sum_weights G (elements (list_to_set (C:=gset (string * string)) (steps p)))
  = Some (path_cost G p).
Proof.
  intros Hnd Hall.
  assert (elements (list_to_set (C:=gset (string * string)) (steps p)) ≡ₚ steps p) as HP
    by (by apply elements_list_to_set).
  rewrite sum_weights_edges by (by rewrite HP).
  unfold path_cost. f_equal. by apply cost_steps_perm.
Qed.

(** ** [func_shortest_path] *)

Section ShortestPathFacts.
Variable nx : DiGraph → string → string → nx_result.
Variable G : DiGraph.

Lemma query_known w1 w2 :
  w1 ∈ g_nodes G → w2 ∈ g_nodes G →
  shortest_path_query nx G w1 w2 =
  match nx G w1 w2 with
  | NxPath path =>
      match sum_weights G (elements (list_to_set (C:=gset (string * string)) (steps path))) with
      | Some length => ShowPath path length
      | None => Uncaught ExcKeyError
      end
  | NetworkXNoPath => ShowUnreachable
  | NodeNotFound => Uncaught ExcNodeNotFound
  end.
Proof.
  intros H1%contains_true H2%contains_true. unfold shortest_path_query.
  by rewrite H1, H2.
Qed.

Lemma query_unknown w1 w2 :
  w1 ∉ g_nodes G ∨ w2 ∉ g_nodes G →
  shortest_path_query nx G w1 w2 = WarnUnknownWord.
Proof.
  unfold shortest_path_query.
  intros [H1%contains_false|H2%contains_false].
  - by rewrite H1.
  - by rewrite H2, orb_true_r.
Qed.

Lemma query_path_edges w1 w2 p :
  is_path G w1 w2 p →
  ∃ n, sum_weights G (elements (list_to_set (C:=gset (string * string)) (steps p)))
       = Some n.
Proof.
  intros (_ & _ & Hall). eexists. apply sum_weights_edges.
  apply Forall_forall. intros uv Hin%elem_of_elements%elem_of_list_to_set.
  by eapply Forall_forall in Hall.
Qed.

Lemma query_no_exception w1 w2 e :
  nx_contract G w1 w2 (nx G w1 w2) → shortest_path_query nx G w1 w2 ≠ Uncaught e.
Proof.
  intros Hc. destruct (decide (w1 ∈ g_nodes G ∧ w2 ∈ g_nodes G)) as [[H1 H2]|Hn].
  - rewrite query_known by done. destruct (nx G w1 w2) as [p| |]; simpl in Hc.
    + destruct Hc as (_ & _ & Hp & _).
      destruct (query_path_edges w1 w2 p Hp) as [n ->]. done.
    + done.
    + tauto.
  - rewrite query_unknown; [done|].
    apply not_and_l in Hn. exact Hn.
Qed.
(** The whole method, with its dialogs, ends without an exception. *)
Lemma func_shortest_path_no_exception ans1 ans2 e :
  (∀ w1 w2, nx_contract G w1 w2 (nx G w1 w2)) →
  func_shortest_path nx G ans1 ans2 ≠ Uncaught e.
Proof.
  intros Hc. unfold func_shortest_path.
  case_bool_decide; [done|].
  destruct ans1 as [w1|]; [|done]. destruct (negb (truthy w1)); [done|].
  destruct ans2 as [w2|]; [|done]. destruct (negb (truthy w2)); [done|].
  apply query_no_exception, Hc.
Qed.
End ShortestPathFacts.

(** C2. When the edge weights are positive, [w1] and [w2] are nodes and
    [w2] can be reached from [w1], and the library call returns what it
    documents, the method shows a path from [w1] to [w2] along edges of the
    graph whose cost no path from [w1] to [w2] undercuts, and the length it
    reports, summed over the set of edges of that path, is that cost. *)
Theorem shortest_path_minimal nx G w1 w2 :
  positive_weights G →
  w1 ∈ g_nodes G → w2 ∈ g_nodes G → (∃ q, is_path G w1 w2 q) →
  nx_contract G w1 w2 (nx G w1 w2) →
  ∃ p, shortest_path_query nx G w1 w2 = ShowPath p (path_cost G p) ∧
       calc_shortest_path nx G w1 w2 = Some p ∧
       is_path G w1 w2 p ∧
       ∀ q, is_path G w1 w2 q → (path_cost G p ≤ path_cost G q)%Z.
Proof.
  intros Hpos H1 H2 Hex Hc. rewrite query_known by done.
  unfold calc_shortest_path.
  destruct (nx G w1 w2) as [p| |]; simpl in Hc.
  - destruct Hc as (_ & _ & Hp & Hmin). exists p.
    rewrite reported_length; [done| |apply Hp].
    by eapply NoDup_steps, minimal_path_NoDup.
  - by destruct Hc as (_ & _ & Hno).
  - tauto.
Qed.

(** C7. When [w1] or [w2] is not a node the method answers with the warning
    for an unknown word, and when both are nodes but [w2] cannot be reached
    it answers that the nodes are unreachable: two different answers, none
    of them an exception, and [calc_shortest_path] returns [None] for both.
    No query at all ends in an uncaught exception. *)
Theorem shortest_path_failures nx G w1 w2 :
  nx_contract G w1 w2 (nx G w1 w2) →
  (w1 ∉ g_nodes G ∨ w2 ∉ g_nodes G →
   shortest_path_query nx G w1 w2 = WarnUnknownWord ∧
   calc_shortest_path nx G w1 w2 = None) ∧
  (w1 ∈ g_nodes G → w2 ∈ g_nodes G → (¬ ∃ q, is_path G w1 w2 q) →
   shortest_path_query nx G w1 w2 = ShowUnreachable ∧
   calc_shortest_path nx G w1 w2 = None) ∧
  WarnUnknownWord ≠ ShowUnreachable ∧
  (∀ e, shortest_path_query nx G w1 w2 ≠ Uncaught e).
Proof.
  intros Hc. split_and!.
  - intros Hn. split; [by apply query_unknown|].
    unfold calc_shortest_path. destruct (nx G w1 w2) as [p| |]; simpl in Hc; try done.
    destruct Hc as (H1 & H2 & _). tauto.
  - intros H1 H2 Hno. rewrite query_known by done. unfold calc_shortest_path.
    destruct (nx G w1 w2) as [p| |]; simpl in Hc.
    + destruct Hc as (_ & _ & Hp & _). destruct Hno. by exists p.
    + done.
    + tauto.
  - done.
  - intros e. by apply query_no_exception.
Qed.

(** C8. For a node [w] of a graph with positive weights, the query from [w]
    to [w] shows the path [[w]] with length 0, whether or not the graph has
    the edge [w → w]. *)
Theorem shortest_path_same_node nx G w :
  positive_weights G → w ∈ g_nodes G →
  nx_contract G w w (nx G w w) →
  shortest_path_query nx G w w = ShowPath [w] 0 ∧
  calc_shortest_path nx G w w = Some [w].
Proof.
  intros Hpos Hw Hc.
  assert (nx G w w = NxPath [w]) as Hr.
  { destruct (nx G w w) as [p| |]; simpl in Hc.
    - destruct Hc as (_ & _ & Hp & Hmin). f_equal.
      specialize (Hmin [w] (is_path_single G w)).
      destruct Hp as (Hh & Hl & Hall).
      destruct p as [|a p]; [done|]. simpl in Hh. simplify_eq.
      destruct p as [|b p]; [done|].
      assert (1 ≤ path_cost G (w :: b :: p))%Z; [|unfold path_cost in *; simpl in *; lia].
      by apply cost_steps_pos.
    - destruct Hc as (_ & _ & Hno). destruct Hno. exists [w]. apply is_path_single.
    - tauto. }
  rewrite query_known by done. unfold calc_shortest_path. rewrite Hr.
  split; [|done]. by vm_compute.
Qed.

(** ** The contract of the library call can be met *)

Lemma elem_of_simple_paths_sound G fuel seen u t p :
  p ∈ simple_paths G fuel seen u t → is_path G u t p.
Proof.
  revert seen u p. induction fuel as [|fuel IH]; intros seen u p; simpl.
  - case_bool_decide as Hut; [|by intros ?%elem_of_nil].
    intros ->%list_elem_of_singleton. subst. apply is_path_single.
  - case_bool_decide as Hut.
    { intros ->%list_elem_of_singleton. subst. apply is_path_single. }
    intros (v & Hp & Hv)%list_elem_of_bind.
    apply list_elem_of_fmap in Hp as (q & -> & Hq).
    apply list_elem_of_filter in Hv as [_ Hv%elem_of_successors].
    apply IH in Hq as (Hh & Hl & Hall).
    destruct q as [|v' q]; [done|]. simpl in Hh. simplify_eq.
    split_and!; [done|by rewrite last_cons_cons|].
    rewrite steps_cons_cons. by apply Forall_cons.
Qed.

Lemma elem_of_simple_paths_complete G fuel seen u t p :
  is_path G u t p → NoDup p → (∀ x, x ∈ p → x ∉ seen) →
  length p ≤ S fuel →
  p ∈ simple_paths G fuel seen u t.
Proof.
  revert seen u p. induction fuel as [|fuel IH]; intros seen u p (Hh & Hl & Hall) Hnd Hseen Hlen.
  - destruct p as [|a p]; [done|]. destruct p; [|simpl in Hlen; lia].
    simpl in *. simplify_eq. rewrite bool_decide_eq_true_2 by done.
    apply list_elem_of_here.
  - destruct p as [|a p]; [done|]. simpl in Hh. simplify_eq. simpl.
    apply NoDup_cons in Hnd as [Hu Hnd].
    case_bool_decide as Hut.
    + subst t. destruct p as [|b p]; [apply list_elem_of_here|].
      destruct Hu. rewrite last_cons_cons in Hl.
      apply last_Some in Hl as [l' Hl']. rewrite Hl'.
      apply elem_of_app. right. apply list_elem_of_here.
    + destruct p as [|v p]; [simpl in Hl; congruence|].
      rewrite steps_cons_cons in Hall. apply Forall_cons in Hall as [Huv Hall].
      apply list_elem_of_bind. exists v. split.
      * apply list_elem_of_fmap. eexists. split; [done|].
        apply IH.
        -- split_and!; [done|by rewrite last_cons_cons in Hl|done].
        -- done.
        -- intros x Hx [->|Hs]%elem_of_cons; [done|].
           by apply (Hseen x); [apply list_elem_of_further|].
        -- simpl in *. lia.
      * apply list_elem_of_filter. split; [|by apply elem_of_successors].
        intros [->|Hs]%elem_of_cons.
        -- apply Hu, list_elem_of_here.
        -- apply (Hseen v); [|done]. apply list_elem_of_further, list_elem_of_here.
Qed.

Lemma simple_path_exists G w1 w2 q :
  positive_weights G → is_path G w1 w2 q →
  ∃ p, is_path G w1 w2 p ∧ NoDup p ∧ (path_cost G p ≤ path_cost G q)%Z.
Proof.
  intros Hpos. remember (length q) as n eqn:Hn. revert q Hn.
  induction n as [n IH] using lt_wf_ind. intros q -> Hq.
  destruct (decide (NoDup q)) as [Hnd|Hnd]; [by exists q|].
  apply not_NoDup_split in Hnd as (x & A & B & C & ->).
  destruct (cut_loop G w1 w2 A x B C Hpos Hq) as [Hq' Hlt].
  destruct (IH (length (A ++ x :: C))) with (q := A ++ x :: C)
    as (p & Hp & Hnd & Hle); [|done|done|].
  { rewrite !length_app. simpl. rewrite length_app. simpl. lia. }
  exists p. split_and!; [done|done|lia].
Qed.

Lemma path_nodes G w1 w2 p x :
  wf_graph G → w1 ∈ g_nodes G → is_path G w1 w2 p → x ∈ p → x ∈ g_nodes G.
Proof.
  intros Hwf H1 (Hh & _ & Hall). revert w1 H1 Hh Hall.
  induction p as [|a p IH]; intros w1 H1 Hh Hall Hx; [by apply elem_of_nil in Hx|].
  simpl in Hh. simplify_eq.
  apply elem_of_cons in Hx as [->|Hx]; [done|].
  destruct p as [|b p]; [by apply elem_of_nil in Hx|].
  rewrite steps_cons_cons in Hall. apply Forall_cons in Hall as [Hab Hall].
  apply (IH b); [by eapply wf_dst|done|done|done].
Qed.

Lemma cheapest_spec G best ps :
  let c := cheapest G best ps in
  (c = best ∨ c ∈ ps) ∧
  (path_cost G c ≤ path_cost G best)%Z ∧
  ∀ p, p ∈ ps → (path_cost G c ≤ path_cost G p)%Z.
Proof.
  revert best. induction ps as [|p ps IH]; intros best; simpl.
  - split_and!; [by left|done|by intros p ?%elem_of_nil].
  - destruct (IH (if bool_decide (path_cost G p < path_cost G best)%Z
                  then p else best)) as (Hin & Hle & Hmin).
    case_bool_decide as Hlt.
    + split_and!.
      * right. destruct Hin as [->|Hin]; [apply list_elem_of_here|by apply list_elem_of_further].
      * lia.
      * intros q [->|Hq]%elem_of_cons; [done|by apply Hmin].
    + split_and!.
      * destruct Hin as [->|Hin]; [by left|right; by apply list_elem_of_further].
      * done.
      * intros q [->|Hq]%elem_of_cons; [lia|by apply Hmin].
Qed.

Lemma reference_contract G w1 w2 :
  wf_graph G → positive_weights G →
  nx_contract G w1 w2 (reference_shortest_path G w1 w2).
Proof.
  intros Hwf Hpos. unfold reference_shortest_path.
  destruct (contains G w1) eqn:H1; simpl.
  2:{ left. by apply contains_false. }
  destruct (contains G w2) eqn:H2; simpl.
  2:{ right. by apply contains_false. }
  apply contains_true in H1, H2.
  assert (∀ q, is_path G w1 w2 q →
    ∃ p, p ∈ simple_paths G (len G) [] w1 w2 ∧ (path_cost G p ≤ path_cost G q)%Z)
    as Hcomplete.
  { intros q Hq. destruct (simple_path_exists G w1 w2 q Hpos Hq) as (p & Hp & Hnd & Hle).
    exists p. split; [|done]. apply elem_of_simple_paths_complete; try done.
    - intros x _. apply not_elem_of_nil.
    - transitivity (len G); [|lia]. unfold len.
      apply submseteq_length, NoDup_submseteq; [done|].
      intros x Hx. by apply (path_nodes G w1 w2 p x). }
  destruct (simple_paths G (len G) [] w1 w2) as [|p0 ps] eqn:Hps; simpl.
  - split_and!; [done|done|]. intros [q Hq].
    destruct (Hcomplete q Hq) as (p & Hin & _). by apply elem_of_nil in Hin.
  - destruct (cheapest_spec G p0 ps) as (Hin & Hle & Hmin).
    split_and!; [done|done| |].
    + apply (elem_of_simple_paths_sound G (len G) []). rewrite Hps.
      destruct Hin as [->|Hin]; [apply list_elem_of_here|by apply list_elem_of_further].
    + intros q Hq. destruct (Hcomplete q Hq) as (p & [->|Hp]%elem_of_cons & Hpq).
      * lia.
      * specialize (Hmin p Hp). lia.
Qed.

(** ** The queries on examples *)

Lemma wf_load_words G words : wf_graph (load_words G words).
Proof. apply wf_foldl_load, wf_empty_graph. Qed.

Lemma positive_load_words G words : positive_weights (load_words G words).
Proof. apply positive_foldl_load. intros e He. by apply elem_of_nil in He. Qed.

Lemma positive_ab_graph : positive_weights ab_graph.
Proof.
  apply positive_weights_add_edge; [lia|]. intros e He. by apply elem_of_nil in He.
Qed.

Lemma wf_loop_graph : wf_graph loop_graph.
Proof. apply wf_add_edge, wf_ab_graph. Qed.

Lemma positive_loop_graph : positive_weights loop_graph.
Proof. apply positive_weights_add_edge; [lia|apply positive_ab_graph]. Qed.

Lemma shortest_path_minimal_witness :
  ∃ p, shortest_path_query reference_shortest_path sample_graph "quick" "fox"
       = ShowPath p (path_cost sample_graph p) ∧
       calc_shortest_path reference_shortest_path sample_graph "quick" "fox" = Some p ∧
       is_path sample_graph "quick" "fox" p ∧
       ∀ q, is_path sample_graph "quick" "fox" q →
            (path_cost sample_graph p ≤ path_cost sample_graph q)%Z.
Proof.
  apply (shortest_path_minimal reference_shortest_path sample_graph "quick" "fox").
  - apply positive_load_words.
  - apply contains_true. vm_compute. reflexivity.
  - apply contains_true. vm_compute. reflexivity.
  - exists ["quick"; "brown"; "fox"].
    apply (elem_of_simple_paths_sound sample_graph 9 []).
    vm_compute. apply list_elem_of_here.
  - apply reference_contract; [apply wf_load_words|apply positive_load_words].
Defined.

Lemma shortest_path_failures_witness :
  (shortest_path_query reference_shortest_path sample_graph "banana" "fox"
   = WarnUnknownWord ∧
   calc_shortest_path reference_shortest_path sample_graph "banana" "fox" = None).
Proof.
  apply (shortest_path_failures reference_shortest_path sample_graph "banana" "fox").
  - apply reference_contract; [apply wf_load_words|apply positive_load_words].
  - left. apply contains_false. vm_compute. reflexivity.
Defined.

Lemma shortest_path_same_node_witness :
  shortest_path_query reference_shortest_path loop_graph "b" "b" = ShowPath ["b"] 0 ∧
  calc_shortest_path reference_shortest_path loop_graph "b" "b" = Some ["b"].
Proof.
  apply (shortest_path_same_node reference_shortest_path loop_graph "b").
  - apply positive_loop_graph.
  - apply contains_true. vm_compute. reflexivity.
  - apply reference_contract; [apply wf_loop_graph|apply positive_loop_graph].
Defined.

Example sample_bridge : bridge_words sample_graph "quick" "fox" = ["brown"].
Proof. vm_compute. reflexivity. Qed.

Example sample_no_bridge : bridge_words sample_graph "lazy" "dog" = [].
Proof. vm_compute. reflexivity. Qed.

Example sample_successors : successors sample_graph "the" = ["quick"; "lazy"].
Proof. vm_compute. reflexivity. Qed.

Example sample_path :
  shortest_path_query reference_shortest_path sample_graph "quick" "fox"
  = ShowPath ["quick"; "brown"; "fox"] 2.
Proof. vm_compute. reflexivity. Qed.

Example sample_unreachable :
  shortest_path_query reference_shortest_path sample_graph "lazy" "quick"
  = ShowUnreachable.
Proof. vm_compute. reflexivity. Qed.

Example sample_unknown :
  shortest_path_query reference_shortest_path sample_graph "banana" "fox"
  = WarnUnknownWord.
Proof. vm_compute. reflexivity. Qed.

Example sample_lower :
  func_shortest_path reference_shortest_path sample_graph (Some "Quick") (Some "FOX")
  = ShowPath ["quick"; "brown"; "fox"] 2.
Proof. vm_compute. reflexivity. Qed.

Example sample_walk :
  walk_thread sample_graph (λ _, 0) (λ _, false) 10
  = Some (CycleDetected, ["the"; "quick"; "brown"; "fox"; "jumps"; "over"; "the"]).
Proof. vm_compute. reflexivity. Qed.

Example sample_walk_dead_end :
  walk_thread sample_graph (λ k, if bool_decide (k = 0) then 6 else 1) (λ _, false) 10
  = Some (DeadEnd, ["lazy"; "dog"]).
Proof. vm_compute. reflexivity. Qed.

Example ab_ranks :
  let pr := pagerank_with_dangling ab_graph (Q2Qc (17 # 20)) (Q2Qc (1 # 10000000000)) 3 in
  (rank pr "a" < rank pr "b")%Qc.
Proof. by vm_compute. Qed.

Example sample_tokens :
  read_words ["The quick, brown fox"; "jumps over"; ""; "the lazy dog!"] = sample_words.
Proof. vm_compute. reflexivity. Qed.

Example sample_tokens_runs : tokenize "  it's 2 B--or not2b " = ["it"; "s"; "b"; "or"; "not"; "b"].
Proof. vm_compute. reflexivity. Qed.

Example ab_ranks_float :
  let pr := pagerank_with_dangling (F:=float) ab_graph 0.85%float 1e-10%float 100 in
  PrimFloat.ltb (PrimFloat.abs (rank pr "a" + rank pr "b" - 1)) 1e-6 = true ∧
  PrimFloat.ltb (rank pr "a") (rank pr "b") = true ∧
  PrimFloat.ltb (PrimFloat.abs (rank pr "a" - 0.350877)) 1e-6 = true.
Proof. vm_compute. done. Qed.

Example dangling_ranks_float :
  let G := mkDiGraph ["x"; "y"; "z"] [] in
  let pr := pagerank_with_dangling (F:=float) G 0.85%float 1e-10%float 100 in
  Forall (λ u, PrimFloat.ltb (PrimFloat.abs (rank pr u - 1 / 3)) 1e-6 = true)
    (g_nodes G).
Proof. vm_compute. repeat constructor. Qed.

Example sample_ranks_float :
  let pr := pagerank_with_dangling (F:=float) sample_graph 0.85%float 1e-10%float 100 in
  PrimFloat.ltb (PrimFloat.abs (psum (rank pr <$> g_nodes sample_graph) - 1)) 1e-6 = true ∧
  Forall (λ u, PrimFloat.leb 0 (rank pr u) = true) (g_nodes sample_graph).
Proof. vm_compute. split; [done|repeat constructor]. Qed.

(** ** The tokenizer *)

Lemma app_cons c s1 s2 : String c s1 +:+ s2 = String c (s1 +:+ s2).
Proof. done. Qed.

Lemma app_nil_l s : "" +:+ s = s.
Proof. done. Qed.

Lemma app_nil_r s : s +:+ "" = s.
Proof. induction s as [|c s IH]; [done|]. by rewrite app_cons, IH. Qed.

Lemma app_assoc s1 s2 s3 : (s1 +:+ s2) +:+ s3 = s1 +:+ (s2 +:+ s3).
Proof. induction s1 as [|c s1 IH]; [done|]. by rewrite !app_cons, IH. Qed.


Lemma all_chars_app P s1 s2 :
  all_chars P (s1 +:+ s2) = all_chars P s1 && all_chars P s2.
Proof.
  induction s1 as [|c s1 IH]; [done|].
  rewrite app_cons. simpl. by rewrite IH, andb_assoc.
Qed.

Ltac each_char c :=
  destruct c as [[] [] [] [] [] [] [] []]; vm_compute; try done; auto.

Lemma lower_ascii_alpha c :
  is_alpha (lower_ascii c) = true → is_lower_alpha (lower_ascii c) = true.
Proof. each_char c. Qed.


Lemma lower_alpha_facts c :
  is_lower_alpha c = true →
  is_alpha c = true ∧ is_space c = false ∧ lower_ascii c = c.
Proof. each_char c. Qed.


(** What [ALPHA_PATTERN.sub] leaves of a lowercased text: lowercase letters
    and spaces. *)
Lemma sub_non_alpha_chars in_run s :
  all_chars (λ c, is_lower_alpha c || bool_decide (c = Ascii.ascii_of_nat 32))
    (sub_non_alpha in_run (lower s)) = true.
Proof.
  revert in_run. induction s as [|c s IH]; intros in_run; simpl; [done|].
  destruct (is_alpha (lower_ascii c)) eqn:Hc.
  - simpl. by rewrite (lower_ascii_alpha c Hc), IH.
  - destruct in_run; [apply IH|]. simpl. rewrite IH. done.
Qed.

Lemma split_ws_tokens cur s :
  all_chars is_lower_alpha cur = true →
  all_chars (λ c, is_lower_alpha c || bool_decide (c = Ascii.ascii_of_nat 32)) s = true →
  Forall is_token (split_ws cur s).
Proof.
  revert cur. induction s as [|c s IH]; intros cur Hcur Hs; simpl.
  - case_bool_decide; [apply Forall_nil_2|]. by apply Forall_singleton.
  - simpl in Hs. apply andb_true_iff in Hs as [Hc Hs].
    destruct (is_space c) eqn:Hsp.
    + destruct (decide (cur = "")) as [->|Hne].
      * rewrite bool_decide_eq_true_2 by done. by apply IH.
      * rewrite bool_decide_eq_false_2 by done.
        apply Forall_cons. split; [done|by apply IH].
    + apply IH; [|done]. rewrite all_chars_app, Hcur. simpl.
      apply orb_true_iff in Hc as [->|Hc]; [done|].
      apply bool_decide_eq_true in Hc. subst c. done.
Qed.

(** X1. Every token that [tokenize] returns, whatever the text, is a
    non-empty string of lowercase ASCII letters. *)
Theorem tokenize_tokens text : Forall is_token (tokenize text).
Proof.
  unfold tokenize. apply split_ws_tokens; [done|apply sub_non_alpha_chars].
Qed.





Lemma lower_token s :
  all_chars (λ c, is_lower_alpha c || bool_decide (c = Ascii.ascii_of_nat 32)) s = true →
  lower s = s.
Proof.
  induction s as [|c s IH]; simpl; [done|].
  intros [Hc Hs]%andb_true_iff. rewrite IH by done. f_equal.
  apply orb_true_iff in Hc as [Hc|Hc].
  - by apply lower_alpha_facts.
  - apply bool_decide_eq_true in Hc. by subst c.
Qed.

Lemma sub_non_alpha_token in_run w s :
  all_chars is_lower_alpha w = true →
  sub_non_alpha in_run (w +:+ s) =
  w +:+ sub_non_alpha (if bool_decide (w = "") then in_run else false) s.
Proof.
  revert in_run. induction w as [|c w IH]; intros in_run; [done|].
  simpl. intros [Hc Hw]%andb_true_iff. rewrite !app_cons. simpl.
  destruct (lower_alpha_facts c Hc) as (-> & _ & _).
  rewrite IH by done. f_equal. by case_bool_decide.
Qed.

Lemma split_ws_token cur w s :
  all_chars is_lower_alpha w = true →
  split_ws cur (w +:+ s) = split_ws (cur +:+ w) s.
Proof.
  revert cur. induction w as [|c w IH]; intros cur.
  - by rewrite app_nil_l, app_nil_r.
  - simpl. intros [Hc Hw]%andb_true_iff. rewrite ?app_cons. simpl.
    destruct (lower_alpha_facts c Hc) as (_ & -> & _).
    rewrite IH by done. by rewrite app_assoc.
Qed.

Lemma join_words_cons w w' ws :
  join_words (w :: w' :: ws) = w +:+ String (Ascii.ascii_of_nat 32) (join_words (w' :: ws)).
Proof. done. Qed.

Lemma join_words_chars ws :
  Forall is_token ws →
  all_chars (λ c, is_lower_alpha c || bool_decide (c = Ascii.ascii_of_nat 32))
    (join_words ws) = true.
Proof.
  assert (∀ w, all_chars is_lower_alpha w = true →
    all_chars (λ c, is_lower_alpha c || bool_decide (c = Ascii.ascii_of_nat 32)) w = true)
    as Hweak.
  { induction w as [|c w IH]; simpl; [done|].
    intros [-> Hw]%andb_true_iff. by rewrite IH. }
  induction 1 as [|w ws [_ Hw] Hws IH]; [done|].
  destruct ws as [|w' ws]; [by apply Hweak|].
  rewrite join_words_cons, all_chars_app. simpl. rewrite IH. by rewrite Hweak.
Qed.

Lemma sub_non_alpha_join in_run ws :
  Forall is_token ws → sub_non_alpha in_run (join_words ws) = join_words ws.
Proof.
  intros Hws. revert in_run.
  induction Hws as [|w ws [Hne Hw] Hws IH]; intros in_run; [done|].
  destruct ws as [|w' ws].
  - change (join_words [w]) with w. rewrite <-(app_nil_r w) at 1.
    rewrite sub_non_alpha_token by done. simpl. apply app_nil_r.
  - rewrite join_words_cons, sub_non_alpha_token by done.
    rewrite bool_decide_eq_false_2 by done. simpl. by rewrite IH.
Qed.

Lemma split_ws_join ws :
  Forall is_token ws → split_ws "" (join_words ws) = ws.
Proof.
  induction 1 as [|w ws [Hne Hw] Hws IH]; [done|].
  destruct ws as [|w' ws].
  - change (join_words [w]) with w. rewrite <-(app_nil_r w) at 1.
    rewrite split_ws_token by done. simpl. by rewrite bool_decide_eq_false_2.
  - rewrite join_words_cons, split_ws_token by done. simpl.
    rewrite bool_decide_eq_false_2 by done. by rewrite IH.
Qed.

(** X3. Joining tokens with single spaces and tokenizing the result gives
    the tokens back. *)
Theorem tokenize_join_words ws :
  Forall is_token ws → tokenize (join_words ws) = ws.
Proof.
  intros Hws. unfold tokenize.
  rewrite lower_token by (by apply join_words_chars).
  rewrite sub_non_alpha_join by done. by apply split_ws_join.
Qed.

Lemma tokenize_join_words_witness : tokenize (join_words sample_words) = sample_words.
Proof.
  apply (tokenize_join_words sample_words).
  unfold sample_words. repeat (apply Forall_cons; split; [by vm_compute|]).
  apply Forall_nil_2.
Defined.

(** ** The graph that [load_file] builds *)

(** X4. Whatever the text, the graph that [load_file] builds lists no node
    and no edge twice, the endpoints of its edges are nodes, and every weight
    is at least 1. *)
Theorem load_file_well_formed G0 lines :
  wf_graph (load_file G0 lines) ∧ positive_weights (load_file G0 lines).
Proof.
  unfold load_file, load_words. split.
  - apply wf_foldl_load, wf_empty_graph.
  - apply positive_foldl_load. intros e He. by apply elem_of_nil in He.
Qed.

Lemma nodes_foldl_load ps G u :
  Forall guarded ps →
  u ∈ g_nodes (foldl load_step G ps) ↔ u ∈ g_nodes G ∨ u ∈ ps.*1 ∨ u ∈ ps.*2.
Proof.
  revert G. induction ps as [|[a b] ps IH]; intros G Hg; csimpl.
  - rewrite !elem_of_nil. tauto.
  - apply Forall_cons in Hg as [Hab Hg]. rewrite IH by done.
    rewrite load_step_guarded by done. rewrite elem_of_nodes_add_edge.
    rewrite !elem_of_cons. simpl. tauto.
Qed.

Lemma elem_of_zip_cons (a : string) ws u :
  u ∈ (zip (a :: ws) ws).*1 ∨ u ∈ (zip (a :: ws) ws).*2 ↔ ws ≠ [] ∧ u ∈ a :: ws.
Proof.
  revert a. induction ws as [|b ws IH]; intros a.
  - csimpl. rewrite !elem_of_nil. tauto.
  - change (zip (a :: b :: ws) (b :: ws)) with ((a, b) :: zip (b :: ws) ws).
    rewrite !fmap_cons, !elem_of_cons. specialize (IH b).
    rewrite elem_of_cons in IH. simpl.
    assert (u ∈ ws → ws ≠ []) as Hne by (intros Hu ->; by apply elem_of_nil in Hu).
    split.
    + intros [[->|HF]|[->|HS]]; (split; [done|]); tauto.
    + intros [_ [->|[->|Hu]]]; [tauto|tauto|].
      destruct (proj2 IH) as [HF|HS]; tauto.
Qed.

Lemma elem_of_zip_tail (ws : list string) u :
  u ∈ (zip ws (tail ws)).*1 ∨ u ∈ (zip ws (tail ws)).*2 ↔ 2 ≤ length ws ∧ u ∈ ws.
Proof.
  destruct ws as [|a ws].
  - csimpl. rewrite !elem_of_nil. simpl. split; [tauto|lia].
  - simpl tail. rewrite elem_of_zip_cons.
    destruct ws; simpl; split; intros [? ?]; (split; [done || lia|done]).
Qed.

(** X5. The nodes of the graph built are exactly the words read, provided
    there are at least two of them; a text of fewer than two words leaves the
    graph without nodes. *)
Theorem load_file_nodes G0 lines u :
  u ∈ g_nodes (load_file G0 lines) ↔
  2 ≤ length (read_words lines) ∧ u ∈ read_words lines.
Proof.
  unfold load_file, load_words.
  rewrite nodes_foldl_load by apply guarded_zip_tail, read_words_nonempty.
  rewrite <-elem_of_zip_tail. simpl. rewrite elem_of_nil. tauto.
Qed.

Lemma keys_foldl_load ps G e :
  Forall guarded ps →
  e ∈ edge_keys (foldl load_step G ps) → e ∈ edge_keys G ∨ e ∈ ps.
Proof.
  revert G. induction ps as [|[a b] ps IH]; intros G Hg; csimpl; [tauto|].
  apply Forall_cons in Hg as [Hab Hg]. intros [He|He]%IH; [|right; by right|done].
  rewrite load_step_guarded in He by done. rewrite edge_keys_add_edge in He.
  simpl in He. destruct (has_edge G a b); [by left|].
  apply elem_of_app in He as [He|He%list_elem_of_singleton]; [by left|].
  right. subst. apply list_elem_of_here.
Qed.

(** X6. The graph built has at most as many nodes as words were read, and
    fewer edges than words. *)
Theorem load_file_bounds G0 lines :
  len (load_file G0 lines) ≤ length (read_words lines) ∧
  size (load_file G0 lines) ≤ length (read_words lines) - 1.
Proof.
  assert (wf_graph (load_file G0 lines)) as [Hn Hk _ _]
    by apply wf_foldl_load, wf_empty_graph.
  pose proof (guarded_zip_tail _ (read_words_nonempty lines)) as Hg.
  split.
  - apply submseteq_length, NoDup_submseteq; [done|].
    intros u Hu. unfold load_file, load_words in Hu.
    apply nodes_foldl_load in Hu as [Hu|Hu]; [by apply elem_of_nil in Hu| |done].
    by apply elem_of_zip_tail in Hu as [_ Hu].
  - unfold size. rewrite <-(length_fmap fst), <-length_zip_tail.
    apply submseteq_length, NoDup_submseteq; [done|].
    intros e He. apply keys_foldl_load in He as [He|He]; [|done|done].
    by apply elem_of_nil in He.
Qed.

(** ** Bridge words *)

Lemma elem_of_bridge_words G w1 w2 m :
  m ∈ bridge_words G w1 w2 ↔
  w1 ∈ g_nodes G ∧ w2 ∈ g_nodes G ∧
  (w1, m) ∈ edge_keys G ∧ (m, w2) ∈ edge_keys G.
Proof.
  unfold bridge_words.
  destruct (contains G w1) eqn:H1; simpl.
  2:{ apply contains_false in H1. rewrite elem_of_nil. tauto. }
  destruct (contains G w2) eqn:H2; simpl.
  2:{ apply contains_false in H2. rewrite elem_of_nil. tauto. }
  apply contains_true in H1, H2.
  rewrite list_elem_of_filter, elem_of_successors, has_edge_true. tauto.
Qed.

Lemma NoDup_successors G u : wf_graph G → NoDup (successors G u).
Proof.
  intros [_ Hk _ _]. unfold successors.
  apply NoDup_fmap_2_strong.
  - intros [[a b] x] [[a' b'] y] [Ha Hx]%list_elem_of_filter [Ha' Hy]%list_elem_of_filter Hb.
    simpl in *. subst.
    assert (Some x = Some y) as [= ->]; [|done].
    rewrite <-(lookup_weight_NoDup (g_edges G) u b' x Hk Hx).
    by apply lookup_weight_NoDup.
  - apply NoDup_filter. by eapply NoDup_fmap_1.
Qed.

(** X7. In a well-formed graph [bridge_words] lists no word twice; the words
    it lists are nodes of the graph and come in the order in which they follow
    [w1]. *)
Theorem bridge_words_distinct G w1 w2 :
  wf_graph G →
  NoDup (bridge_words G w1 w2) ∧
  (∀ m, m ∈ bridge_words G w1 w2 → m ∈ g_nodes G) ∧
  bridge_words G w1 w2 `sublist_of` successors G w1.
Proof.
  intros Hwf. split_and!.
  - unfold bridge_words. destruct (_ || _); [apply NoDup_nil_2|].
    by apply NoDup_filter, NoDup_successors.
  - intros m (_ & _ & _ & Hm)%elem_of_bridge_words. by eapply wf_src.
  - unfold bridge_words. destruct (_ || _); [apply sublist_nil_l|].
    apply sublist_filter.
Qed.

Lemma bridge_words_distinct_witness :
  NoDup (bridge_words sample_graph "quick" "fox").
Proof.
  apply (bridge_words_distinct sample_graph "quick" "fox").
  apply wf_foldl_load, wf_empty_graph.
Defined.

Lemma sorted_set_spec l :
  StronglySorted String.le (sorted_set l) ∧ NoDup (sorted_set l) ∧
  ∀ x, x ∈ sorted_set l ↔ x ∈ l.
Proof.
  unfold sorted_set.
  pose proof (merge_sort_Permutation String.le
    (elements (list_to_set (C:=gset string) l))) as HP.
  split_and!.
  - apply StronglySorted_merge_sort; apply _.
  - rewrite HP. apply NoDup_elements.
  - intros x. rewrite HP, elem_of_elements, elem_of_list_to_set. done.
Qed.

(** X8. Asked about two non-empty words on a loaded graph, [func_bridge]
    either reports that there is no bridge, exactly when [bridge_words] finds
    none for the lowercased words, or shows the bridge words, each once and
    in increasing order. *)
Theorem func_bridge_spec G w1 w2 :
  len G ≠ 0 → w1 ≠ "" → w2 ≠ "" →
  let bridges := bridge_words G (lower w1) (lower w2) in
  (bridges = [] ∧ func_bridge G (Some w1) (Some w2) = NoBridge) ∨
  (bridges ≠ [] ∧
   ∃ l, func_bridge G (Some w1) (Some w2) = Bridges l ∧
        StronglySorted String.le l ∧ NoDup l ∧
        ∀ m, m ∈ l ↔ m ∈ bridges).
Proof.
  intros Hlen H1 H2 bridges. unfold func_bridge, truthy.
  rewrite !bool_decide_eq_false_2 by done. simpl. fold bridges.
  destruct bridges as [|b bs] eqn:Hb; [by left|].
  right. split; [done|]. eexists. split; [done|]. apply sorted_set_spec.
Qed.

Lemma func_bridge_spec_witness :
  let bridges := bridge_words sample_graph (lower "Quick") (lower "FOX") in
  (bridges = [] ∧ func_bridge sample_graph (Some "Quick") (Some "FOX") = NoBridge) ∨
  (bridges ≠ [] ∧
   ∃ l, func_bridge sample_graph (Some "Quick") (Some "FOX") = Bridges l ∧
        StronglySorted String.le l ∧ NoDup l ∧
        ∀ m, m ∈ l ↔ m ∈ bridges).
Proof.
  apply (func_bridge_spec sample_graph "Quick" "FOX"); [by vm_compute|done|done].
Defined.

Example sample_func_bridge :
  func_bridge sample_graph (Some "Quick") (Some "FOX") = Bridges ["brown"].
Proof. vm_compute. reflexivity. Qed.

(** ** Sentences with bridge words *)

Lemma zip_fst_last (ws : list string) :
  (zip ws (tail ws)).*1 ++ option_list (last ws) = ws.
Proof.
  induction ws as [|a ws IH]; [done|].
  destruct ws as [|b ws]; [done|].
  change (zip (a :: b :: ws) (tail (a :: b :: ws)))
    with ((a, b) :: zip (b :: ws) (tail (b :: ws))).
  rewrite fmap_cons, last_cons_cons. rewrite <-app_comm_cons. by f_equal.
Qed.

Lemma insert_bridges_sublist G rnd k ps :
  ps.*1 `sublist_of` insert_bridges G rnd k ps.
Proof.
  revert k. induction ps as [|ab ps IH]; intros k; csimpl; [done|].
  destruct (bridge_words G ab.1 ab.2).
  - by apply sublist_skip.
  - by apply sublist_skip, sublist_cons.
Qed.

Lemma insert_bridges_length G rnd k ps :
  length ps ≤ length (insert_bridges G rnd k ps) ≤ 2 * length ps.
Proof.
  revert k. induction ps as [|ab ps IH]; intros k; simpl; [lia|].
  destruct (bridge_words G ab.1 ab.2); simpl.
  - specialize (IH k). lia.
  - specialize (IH (S k)). lia.
Qed.

Lemma insert_bridges_elem G rnd k ps x :
  x ∈ insert_bridges G rnd k ps →
  x ∈ ps.*1 ∨ ∃ ab, ab ∈ ps ∧ x ∈ bridge_words G ab.1 ab.2.
Proof.
  revert k. induction ps as [|ab ps IH]; intros k; csimpl.
  { by intros ?%elem_of_nil. }
  destruct (bridge_words G ab.1 ab.2) as [|m0 mids] eqn:Hm.
  - intros [->|Hx]%elem_of_cons; [left; apply list_elem_of_here|].
    destruct (IH _ Hx) as [?|(ab' & ? & ?)].
    + left. by apply list_elem_of_further.
    + right. exists ab'. split; [by apply list_elem_of_further|done].
  - intros [->|[->|Hx]%elem_of_cons]%elem_of_cons.
    + left. apply list_elem_of_here.
    + right. exists ab. split; [apply list_elem_of_here|].
      rewrite Hm. by apply random_choice_elem.
    + destruct (IH _ Hx) as [?|(ab' & ? & ?)].
      * left. by apply list_elem_of_further.
      * right. exists ab'. split; [by apply list_elem_of_further|done].
Qed.

Lemma insert_bridges_none G rnd k ps :
  (∀ ab, ab ∈ ps → bridge_words G ab.1 ab.2 = []) →
  insert_bridges G rnd k ps = ps.*1.
Proof.
  induction ps as [|ab ps IH]; intros Hno; csimpl; [done|].
  rewrite (Hno ab) by apply list_elem_of_here. f_equal. apply IH.
  intros ab' Hab'. by apply Hno, list_elem_of_further.
Qed.

(** X9. The words of the new sentence are the words typed, in their order,
    with at most one word put between two neighbours, and every word put in
    is a bridge word of its two neighbours.  When no neighbours have a bridge
    word, the words are unchanged. *)
Theorem bridged_words_shape G rnd words :
  words `sublist_of` bridged_words G rnd words ∧
  length words ≤ length (bridged_words G rnd words) ≤ 2 * length words - 1 ∧
  (∀ x, x ∈ bridged_words G rnd words →
        x ∈ words ∨ ∃ a b, (a, b) ∈ steps words ∧ x ∈ bridge_words G a b) ∧
  ((∀ a b, (a, b) ∈ steps words → bridge_words G a b = []) →
   bridged_words G rnd words = words).
Proof.
  unfold bridged_words, steps. split; [|split; [|split]].
  - rewrite <-(zip_fst_last words) at 1.
    apply sublist_app; [apply insert_bridges_sublist|done].
  - pose proof (insert_bridges_length G rnd 0 (zip words (tail words))) as Hl.
    rewrite length_zip_tail in Hl. rewrite length_app.
    destruct words as [|a ws]; [simpl in *; lia|].
    assert (length (option_list (last (a :: ws))) = 1) as ->.
    { destruct (last (a :: ws)) eqn:Hlast; [done|].
      by apply last_None in Hlast. }
    simpl length in *. lia.
  - intros x [Hx|Hx]%elem_of_app.
    + apply insert_bridges_elem in Hx as [Hx|([a b] & Hab & Hx)].
      * left. rewrite <-(zip_fst_last words). apply elem_of_app. by left.
      * right. by exists a, b.
    + left. rewrite <-(zip_fst_last words). apply elem_of_app. by right.
  - intros Hno. rewrite insert_bridges_none; [apply zip_fst_last|].
    intros [a b] Hab. by apply Hno.
Qed.

Lemma read_words_tokens lines : Forall is_token (read_words lines).
Proof.
  apply Forall_forall. intros t (line & Ht & _)%list_elem_of_bind.
  revert t Ht. apply Forall_forall. unfold tokenize.
  apply split_ws_tokens; [done|apply sub_non_alpha_chars].
Qed.

Lemma load_file_node_tokens G0 lines : Forall is_token (g_nodes (load_file G0 lines)).
Proof.
  apply Forall_forall. intros u Hu. unfold load_file, load_words in Hu.
  apply nodes_foldl_load in Hu; [|apply guarded_zip_tail, read_words_nonempty].
  destruct Hu as [Hu|Hu]; [by apply elem_of_nil in Hu|].
  apply elem_of_zip_tail in Hu as [_ Hu].
  by eapply Forall_forall in Hu; [|apply read_words_tokens].
Qed.

(** X10. On a graph loaded from any text, the sentence that [process] shows
    for a text of at least two words tokenizes back to the list of words it
    was joined from. *)
Theorem process_round_trip G0 lines rnd text :
  2 ≤ length (tokenize text) →
  let G := load_file G0 lines in
  ∃ s, process G rnd text = Sentence s ∧
       tokenize s = bridged_words G rnd (tokenize text).
Proof.
  intros Hlen G. unfold process.
  rewrite bool_decide_eq_false_2 by lia. eexists. split; [done|].
  assert (Forall is_token (bridged_words G rnd (tokenize text))) as Htok.
  { apply Forall_forall. intros x Hx.
    assert (Forall is_token (tokenize text)) as Hw.
    { unfold tokenize. apply split_ws_tokens; [done|apply sub_non_alpha_chars]. }
    unfold bridged_words in Hx. apply elem_of_app in Hx as [Hx|Hx].
    - apply insert_bridges_elem in Hx as [Hx|(ab & Hab & Hx)].
      + assert (x ∈ tokenize text) as Hin.
        { rewrite <-(zip_fst_last (tokenize text)). apply elem_of_app. by left. }
        by eapply Forall_forall in Hin.
      + apply elem_of_bridge_words in Hx as (_ & _ & _ & Hx).
        assert (x ∈ g_nodes G) as Hn.
        { eapply wf_src; [|exact Hx]. apply wf_foldl_load, wf_empty_graph. }
        by eapply Forall_forall in Hn; [|apply load_file_node_tokens].
    - assert (x ∈ tokenize text) as Hin.
      { rewrite <-(zip_fst_last (tokenize text)). apply elem_of_app. by right. }
      by eapply Forall_forall in Hin. }
  unfold tokenize at 1.
  rewrite lower_token by (by apply join_words_chars).
  rewrite sub_non_alpha_join by done. by apply split_ws_join.
Qed.

Lemma process_round_trip_witness :
  ∃ s, process (load_file empty_graph ["the quick brown fox"]) (λ _, 0) "Quick fox!"
       = Sentence s ∧
       tokenize s =
       bridged_words (load_file empty_graph ["the quick brown fox"]) (λ _, 0)
         (tokenize "Quick fox!").
Proof.
  apply (process_round_trip empty_graph ["the quick brown fox"] (λ _, 0) "Quick fox!").
  vm_compute. lia.
Defined.

Example sample_process :
  process sample_graph (λ _, 0) "The QUICK fox, the dog"
  = Sentence "the quick brown fox the lazy dog".
Proof. vm_compute. reflexivity. Qed.

(** ** More on [func_shortest_path] *)





Lemma cost_steps_ge_length G es :
  positive_weights G → Forall (λ uv, uv ∈ edge_keys G) es →
  (Z.of_nat (length es) ≤ cost_steps G es)%Z.
Proof.
  intros Hp. induction 1 as [|e es He _ IH]; simpl; [done|].
  pose proof (weight_edge_pos G e Hp He). lia.
Qed.

(** X12. With positive weights and a library call that does what it
    documents, a path that the method shows visits no node twice, stays on
    nodes of the graph, and the length reported is at least the number of
    its edges; it is 0 exactly when source and target are the same word. *)
Theorem shown_path_simple nx G w1 w2 p n :
  wf_graph G → positive_weights G →
  nx_contract G w1 w2 (nx G w1 w2) →
  shortest_path_query nx G w1 w2 = ShowPath p n →
  NoDup p ∧ (∀ x, x ∈ p → x ∈ g_nodes G) ∧
  (Z.of_nat (length p) - 1 ≤ n)%Z ∧ (n = 0%Z ↔ w1 = w2).
Proof.
  intros Hwf Hpos Hc Hq.
  destruct (decide (w1 ∈ g_nodes G ∧ w2 ∈ g_nodes G)) as [[H1 H2]|Hn].
  2:{ rewrite query_unknown in Hq; [done|]. by apply not_and_l in Hn. }
  rewrite query_known in Hq by done.
  destruct (nx G w1 w2) as [p0| |]; simpl in Hc; [|done|done].
  destruct Hc as (_ & _ & Hp & Hmin).
  assert (NoDup p0) as Hnd by (by eapply minimal_path_NoDup).
  rewrite reported_length in Hq; [|by apply NoDup_steps|apply Hp].
  injection Hq as -> <-.
  assert (Z.of_nat (length p) - 1 ≤ path_cost G p)%Z as Hlen.
  { pose proof (cost_steps_ge_length G (steps p) Hpos (proj2 (proj2 Hp))) as Hl.
    rewrite length_steps in Hl. unfold path_cost. lia. }
  split_and!; [done| |done|].
  - intros x Hx. by apply (path_nodes G w1 w2 p x).
  - split.
    + intros H0. rewrite H0 in Hlen. destruct Hp as (Hh & Hl & _).
      destruct p as [|a [|b p]]; simpl in *; [done|congruence|lia].
    + intros <-. specialize (Hmin [w1] (is_path_single G w1)).
      pose proof (cost_steps_nonneg G (steps p) Hpos).
      unfold path_cost in *. simpl in Hmin. lia.
Qed.

Lemma shown_path_simple_witness :
  NoDup ["quick"; "brown"; "fox"] ∧
  (∀ x, x ∈ ["quick"; "brown"; "fox"] → x ∈ g_nodes sample_graph) ∧
  (Z.of_nat (length ["quick"; "brown"; "fox"]) - 1 ≤ 2)%Z ∧
  (2%Z = 0%Z ↔ "quick" = "fox").
Proof.
  apply (shown_path_simple reference_shortest_path sample_graph "quick" "fox").
  - apply wf_foldl_load, wf_empty_graph.
  - apply positive_foldl_load. intros e He. by apply elem_of_nil in He.
  - apply reference_contract.
    + apply wf_foldl_load, wf_empty_graph.
    + apply positive_foldl_load. intros e He. by apply elem_of_nil in He.
  - vm_compute. reflexivity.
Defined.

(** ** More on PageRank *)

(** X15. Whatever the arithmetic, the loop of [pagerank_with_dangling]
    returns the [k]-th iterate of its start vector for the first [k >= 1] at
    which the change between two successive iterates is below the tolerance,
    and the iterate number [max_iter] when there is no such [k] up to
    [max_iter]: running out of iterations is not an error. *)
Theorem iterate_stops_first {F : Type} `{Arith F} (G : DiGraph) (d tol : F)
    (max_iter : nat) (pr : gmap string F) :
  let it k := Nat.iter k (iteration G d) pr in
  ∃ k, k ≤ max_iter ∧
       iterate G d tol max_iter pr = it k ∧
       (∀ j, S j < k → flt (change G (it (S j)) (it j)) tol = false) ∧
       (k < max_iter → ∃ j, k = S j ∧ flt (change G (it k) (it j)) tol = true).
Proof.
  revert pr. induction max_iter as [|n IH]; intros pr it.
  - exists 0. split_and!; [done|done|intros; lia|intros; lia].
  - cbn [iterate].
    destruct (flt (change G (iteration G d pr) pr) tol) eqn:Hflt.
    + exists 1. split_and!; [lia|done|intros; lia|].
      intros _. exists 0. done.
    + destruct (IH (iteration G d pr)) as (k & Hk & Heq & Hfalse & Htrue).
      assert (∀ j, Nat.iter j (iteration G d) (iteration G d pr) = it (S j)) as Hit.
      { intros j. unfold it. by rewrite Nat.iter_succ_r. }
      exists (S k). split_and!.
      * lia.
      * by rewrite Heq, Hit.
      * intros [|j] Hj; [done|].
        rewrite <-!Hit. apply Hfalse. lia.
      * intros Hlt. destruct Htrue as (j & -> & Hj); [lia|].
        exists (S j). split; [done|]. by rewrite <-!Hit.
Qed.

Lemma sumq_elem_le {A} (f : A → Qc) l x :
  (∀ y, 0 ≤ f y)%Qc → x ∈ l → (f x ≤ sumq (f <$> l))%Qc.
Proof.
  intros Hf. induction l as [|y l IH]; [by intros ?%elem_of_nil|].
  csimpl. intros [->|Hx]%elem_of_cons.
  - rewrite <-(Qcplus_0_r (f y)) at 1. apply Qcplus_le_mono_l.
    apply sumq_nonneg, Forall_fmap, Forall_forall. intros z _. apply Hf.
  - etrans; [by apply IH|]. rewrite <-(Qcplus_0_l (sumq _)) at 1.
    apply Qcplus_le_mono_r, Hf.
Qed.

Section RankBounds.
Variable G : DiGraph.
Hypothesis Hwf : wf_graph G.
Hypothesis Hlen : len G ≠ 0.
Variables d tol : Qc.
Hypothesis Hd0 : (0 ≤ d)%Qc.
Hypothesis Hd1 : (d ≤ 1)%Qc.

Lemma floor_initial u :
  u ∈ g_nodes G → ((1 - d) / N G ≤ rank (initial_ranks G) u)%Qc.
Proof.
  intros Hu. unfold rank. rewrite initial_ranks_lookup, decide_True by done.
  cbn [default fdiv of_int Qc_arith]. rewrite Z2Qc_inj_1.
  apply Qcmult_le_mono_nonneg_r; [apply Qcinv_nonneg, Qc_of_nat_nonneg|].
  apply Qcle_minus_iff. by replace (1 + - (1 - d))%Qc with d by ring.
Qed.

Lemma floor_iteration pr u :
  rank_inv G pr → u ∈ g_nodes G →
  ((1 - d) / N G ≤ rank (iteration G d pr) u)%Qc.
Proof.
  intros [_ Hnn _] Hu. rewrite rank_iteration, decide_True by done.
  rewrite new_rank_Qc. rewrite <-(Qcplus_0_r ((1 - d) / N G)) at 1.
  apply Qcplus_le_mono_l, Qcmult_nonneg_nonneg; [done|].
  apply Qcplus_nonneg_nonneg.
  - apply Qcdiv_nonneg; [by apply dangling_nonneg|apply Qc_of_nat_nonneg].
  - by apply incoming_nonneg.
Qed.

Lemma floor_iterate max_iter pr u :
  rank_inv G pr → u ∈ g_nodes G →
  ((1 - d) / N G ≤ rank pr u)%Qc →
  ((1 - d) / N G ≤ rank (iterate G d tol max_iter pr) u)%Qc.
Proof.
  revert pr. induction max_iter as [|n IH]; intros pr Hinv Hu Hpr; simpl; [done|].
  case_bool_decide.
  - by apply floor_iteration.
  - apply IH; [by apply rank_inv_iteration|done|by apply floor_iteration].
Qed.
End RankBounds.

(** X14. In exact arithmetic, for a graph with at least one node and a
    damping factor [d] between 0 and 1, every rank returned lies between
    [(1 - d)/N] and 1. *)
Theorem pagerank_bounds G (d tol : Qc) max_iter u :
  wf_graph G → 1 ≤ len G → (0 ≤ d)%Qc → (d ≤ 1)%Qc → u ∈ g_nodes G →
  let pr := pagerank_with_dangling G d tol max_iter in
  ((1 - d) / Qc_of_Z (Z.of_nat (len G)) ≤ rank pr u)%Qc ∧ (rank pr u ≤ 1)%Qc.
Proof.
  intros Hwf Hlen Hd0 Hd1 Hu pr.
  assert (len G ≠ 0) as Hne by lia.
  assert (pr = iterate G d tol max_iter (initial_ranks G)) as ->.
  { unfold pr, pagerank_with_dangling. by rewrite bool_decide_eq_false_2. }
  split.
  - apply floor_iterate; try done; [by apply rank_inv_initial|by apply floor_initial].
  - destruct (rank_inv_iterate G Hwf Hne d tol Hd0 Hd1 max_iter (initial_ranks G))
      as [_ Hnn Hsum]; [by apply rank_inv_initial|].
    rewrite <-Hsum. by apply sumq_elem_le.
Qed.

Lemma pagerank_bounds_witness :
  let pr := pagerank_with_dangling ab_graph (Q2Qc (17 # 20)) (Q2Qc (1 # 10000000000)) 100 in
  ((1 - Q2Qc (17 # 20)) / Qc_of_Z (Z.of_nat (len ab_graph)) ≤ rank pr "a")%Qc ∧
  (rank pr "a" ≤ 1)%Qc.
Proof.
  apply (pagerank_bounds ab_graph (Q2Qc (17 # 20)) (Q2Qc (1 # 10000000000)) 100 "a").
  - exact wf_ab_graph.
  - vm_compute. lia.
  - by vm_compute.
  - by vm_compute.
  - apply list_elem_of_In. vm_compute. tauto.
Defined.

(** ** The ranking of [func_pagerank] *)

Lemma insert_ranked_perm {F : Type} `{Arith F} (x : string * F) l :
  insert_ranked x l ≡ₚ x :: l.
Proof.
  induction l as [|y l IH]; simpl; [done|].
  destruct (flt x.2 y.2); [|done]. rewrite IH. apply Permutation_swap.
Qed.

Lemma ranked_perm {F : Type} `{Arith F} G (pr : gmap string F) :
  ranked G pr ≡ₚ (λ u, (u, rank pr u)) <$> g_nodes G.
Proof.
  unfold ranked. induction (g_nodes G) as [|u l IH]; csimpl; [done|].
  by rewrite insert_ranked_perm, IH.
Qed.

Lemma insert_ranked_sorted (x : string * Qc) l :
  StronglySorted (λ a b : string * Qc, (b.2 ≤ a.2)%Qc) l →
  StronglySorted (λ a b : string * Qc, (b.2 ≤ a.2)%Qc) (insert_ranked x l).
Proof.
  induction 1 as [|y l Hl IH Hy]; simpl; [by repeat constructor|].
  case_bool_decide as Hlt.
  - constructor; [done|]. apply Forall_forall. intros z Hz.
    rewrite insert_ranked_perm in Hz. apply elem_of_cons in Hz as [->|Hz].
    + by apply Qclt_le_weak.
    + by eapply Forall_forall in Hy.
  - apply Qcnot_lt_le in Hlt. constructor; [by constructor|].
    apply Forall_cons. split; [done|].
    eapply Forall_impl; [exact Hy|]. intros z Hz. simpl in *. by etrans.
Qed.

Lemma imap_numbering {A} (l : list A) k :
  (imap (λ i item, (k + S i, item)) l).*1 = seq (S k) (length l) ∧
  (imap (λ i item, (k + S i, item)) l).*2 = l.
Proof.
  revert k. induction l as [|x l IH]; intros k; csimpl; [done|].
  destruct (IH (S k)) as [IH1 IH2].
  rewrite (imap_ext _ (λ i item, (S k + S i, item)))
    by (intros; simpl; f_equal; lia).
  rewrite IH1, IH2. split; [|done]. f_equal. lia.
Qed.

(** X16. For a graph with nodes, the result window of [func_pagerank] has
    one line per node, numbered from 1, each with the rank of its node, and
    the ranks never increase down the list (exact arithmetic). *)
Theorem func_pagerank_ranking G (d tol : Qc) :
  len G ≠ 0 →
  let pr := pagerank_with_dangling G d tol 100 in
  ∃ lines, func_pagerank G d tol = Some lines ∧
    lines.*1 = seq 1 (len G) ∧
    lines.*2 ≡ₚ (λ u, (u, rank pr u)) <$> g_nodes G ∧
    StronglySorted (λ a b : string * Qc, (b.2 ≤ a.2)%Qc) lines.*2.
Proof.
  intros Hlen pr. unfold func_pagerank. rewrite bool_decide_eq_false_2 by done.
  fold pr. eexists. split; [done|].
  destruct (imap_numbering (ranked G pr) 0) as [H1 H2]. simpl in H1, H2.
  rewrite H1, H2. split_and!.
  - f_equal. rewrite ranked_perm. by rewrite length_fmap.
  - apply ranked_perm.
  - unfold ranked. induction (_ <$> g_nodes G) as [|x l IH]; simpl; [constructor|].
    by apply insert_ranked_sorted.
Qed.

Lemma func_pagerank_ranking_witness :
  let pr := pagerank_with_dangling ab_graph (Q2Qc (17 # 20)) (Q2Qc (1 # 10000000000)) 100 in
  ∃ lines, func_pagerank ab_graph (Q2Qc (17 # 20)) (Q2Qc (1 # 10000000000)) = Some lines ∧
    lines.*1 = seq 1 (len ab_graph) ∧
    lines.*2 ≡ₚ (λ u, (u, rank pr u)) <$> g_nodes ab_graph ∧
    StronglySorted (λ a b : string * Qc, (b.2 ≤ a.2)%Qc) lines.*2.
Proof.
  apply (func_pagerank_ranking ab_graph (Q2Qc (17 # 20)) (Q2Qc (1 # 10000000000))).
  by vm_compute.
Defined.

Example ab_ranking_float :
  (λ line : nat * (string * float), (line.1, line.2.1)) <$>
    default [] (func_pagerank (F:=float) ab_graph 0.85%float 1e-10%float)
  = [(1, "b"); (2, "a")].
Proof. vm_compute. reflexivity. Qed.

(** ** More on the random walk *)

Lemma walk_loop_prefix G rnd stop fuel i st r :
  walk_loop G rnd stop fuel i st = Some r →
  w_visited st `prefix_of` w_visited r.2.
Proof.
  revert i st. induction fuel as [|fuel IH]; intros i st; simpl; [done|].
  destruct (stop i); [by intros [= <-]|].
  destruct (successors G (w_node st)) as [|s0 succ]; [by intros [= <-]|].
  case_bool_decide; [by intros [= <-]|].
  intros Hr%IH. simpl in Hr. etrans; [|exact Hr]. by apply prefix_app_r.
Qed.

(** X17. The trace of a walk started at a node of a well-formed graph is a
    path of the graph from the start node to the node where the walk ends,
    it stays on nodes of the graph, and it has one node more than the walk
    has recorded edges. *)
Theorem walk_is_path G rnd stop start :
  wf_graph G → start ∈ g_nodes G →
  ∃ status st,
    walk_loop G rnd stop (S (size G)) 0 (walk_from start) = Some (status, st) ∧
    is_path G start (w_node st) (w_visited st) ∧
    (∀ x, x ∈ w_visited st → x ∈ g_nodes G) ∧
    length (w_visited st) = S (base.size (w_edges st)).
Proof.
  intros Hwf Hstart.
  destruct (walk_loop_terminates G rnd stop (S (size G)) 0 (walk_from start))
    as [[status st] Hr]; [apply walk_inv_from|simpl; lia|].
  exists status, st. split; [done|].
  pose proof (walk_loop_prefix _ _ _ _ _ _ _ Hr) as [k Hk]. simpl in Hk.
  apply walk_loop_final in Hr as [[Hl Hnd He Hg] _]; [|apply walk_inv_from].
  simpl in *.
  assert (is_path G start (w_node st) (w_visited st)) as Hp.
  { split_and!; [by rewrite Hk|done|by apply Forall_forall]. }
  split_and!; [done| |].
  - intros x Hx. by apply (path_nodes G start (w_node st) (w_visited st) x).
  - assert (w_edges st = list_to_set (steps (w_visited st))) as ->.
    { apply set_eq. intros e. by rewrite He, elem_of_list_to_set. }
    rewrite size_list_to_set by done. rewrite length_steps, Hk. simpl. lia.
Qed.

Lemma walk_is_path_witness :
  ∃ status st,
    walk_loop sample_graph (λ _, 0) (λ _, false) (S (size sample_graph)) 0
      (walk_from "the") = Some (status, st) ∧
    is_path sample_graph "the" (w_node st) (w_visited st) ∧
    (∀ x, x ∈ w_visited st → x ∈ g_nodes sample_graph) ∧
    length (w_visited st) = S (base.size (w_edges st)).
Proof.
  apply (walk_is_path sample_graph (λ _, 0) (λ _, false) "the").
  - apply wf_foldl_load, wf_empty_graph.
  - apply contains_true. vm_compute. reflexivity.
Defined.

Lemma walk_cancel_prefix G rnd stop fuel fuel' i st r r' :
  walk_loop G rnd stop fuel i st = Some r →
  walk_loop G rnd (λ _, false) fuel' i st = Some r' →
  w_visited r.2 `prefix_of` w_visited r'.2 ∧ (r.1 ≠ Cancelled → r = r').
Proof.
  revert fuel' i st. induction fuel as [|fuel IH]; intros fuel' i st; simpl; [done|].
  destruct fuel' as [|fuel']; simpl; [done|].
  destruct (stop i).
  { intros [= <-] Hr'. simpl. split; [|done].
    apply (walk_loop_prefix G rnd (λ _, false) (S fuel') i st r'). exact Hr'. }
  destruct (successors G (w_node st)) as [|s0 succ].
  { intros [= <-] [= <-]. done. }
  case_bool_decide.
  { intros [= <-] [= <-]. done. }
  apply IH.
Qed.

(** X18. Setting the stop event only cuts a walk short: with the same draws
    and the same start, the trace of a walk with a stop event is a
    beginning of the trace of the walk that is never stopped, and both walks
    coincide when the first one is not cancelled. *)
Theorem walk_cancel_cuts_short G rnd stop start :
  ∃ status st status' st',
    walk_loop G rnd stop (S (size G)) 0 (walk_from start) = Some (status, st) ∧
    walk_loop G rnd (λ _, false) (S (size G)) 0 (walk_from start)
      = Some (status', st') ∧
    w_visited st `prefix_of` w_visited st' ∧
    (status ≠ Cancelled → status = status' ∧ st = st').
Proof.
  destruct (walk_loop_terminates G rnd stop (S (size G)) 0 (walk_from start))
    as [[status st] Hr]; [apply walk_inv_from|simpl; lia|].
  destruct (walk_loop_terminates G rnd (λ _, false) (S (size G)) 0 (walk_from start))
    as [[status' st'] Hr']; [apply walk_inv_from|simpl; lia|].
  exists status, st, status', st'. split_and!; [done|done| |].
  - apply (walk_cancel_prefix _ _ _ _ _ _ _ _ _ Hr Hr').
  - intros Hs. destruct (walk_cancel_prefix _ _ _ _ _ _ _ _ _ Hr Hr') as [_ Heq].
    specialize (Heq Hs). by simplify_eq.
Qed.

(** X19. With a library call that does what it documents, the three answers
    of the shortest-path query tell the three cases apart: the warning for an
    unknown word exactly when a word is not a node, the message that the
    nodes are unreachable exactly when both are nodes and no path leads from
    the first to the second, and a path exactly when both are nodes and such
    a path exists. *)
Theorem shortest_path_outcomes nx G w1 w2 :
  nx_contract G w1 w2 (nx G w1 w2) →
  let known := w1 ∈ g_nodes G ∧ w2 ∈ g_nodes G in
  (shortest_path_query nx G w1 w2 = WarnUnknownWord ↔ ¬ known) ∧
  (shortest_path_query nx G w1 w2 = ShowUnreachable ↔
   known ∧ ¬ ∃ q, is_path G w1 w2 q) ∧
  ((∃ p n, shortest_path_query nx G w1 w2 = ShowPath p n) ↔
   known ∧ ∃ q, is_path G w1 w2 q).
Proof.
  intros Hc known.
  destruct (decide known) as [[H1 H2]|Hn].
  - rewrite query_known by done.
    destruct (nx G w1 w2) as [p| |]; simpl in Hc.
    + destruct Hc as (_ & _ & Hp & _).
      destruct (query_path_edges G w1 w2 p Hp) as [n ->].
      split_and!; split; try done.
      * intros Hk. by destruct Hk.
      * intros [_ Hno]. destruct Hno. by exists p.
      * intros _. split; [done|by exists p].
      * intros _. by exists p, n.
    + destruct Hc as (_ & _ & Hno).
      split_and!; split; try done.
      * intros Hk. by destruct Hk.
      * by intros (p & n & ?).
      * by intros [_ ?].
    + destruct Hc as [?|?]; done.
  - rewrite query_unknown by (by apply not_and_l in Hn).
    split_and!; split; try done.
    + by intros [? _].
    + by intros (p & n & ?).
    + by intros [? _].
Qed.

Lemma shortest_path_outcomes_witness :
  shortest_path_query reference_shortest_path sample_graph "lazy" "quick"
  = ShowUnreachable ↔
  ("lazy" ∈ g_nodes sample_graph ∧ "quick" ∈ g_nodes sample_graph) ∧
  ¬ ∃ q, is_path sample_graph "lazy" "quick" q.
Proof.
  apply (shortest_path_outcomes reference_shortest_path sample_graph "lazy" "quick").
  apply reference_contract.
  - apply wf_foldl_load, wf_empty_graph.
  - apply positive_foldl_load. intros e He. by apply elem_of_nil in He.
Defined.
